(** * Smart Store Access System: the CoAP server of [server.py]

    A shallow embedding of the custom CoAP codec ([CoAPMessage.parse],
    [CoAPMessage.serialize], [CoAPMessage.create_response],
    [CoAPMessage.get_uri_path]), of the capacity ledger ([StoreStats]) and of
    the two request handlers of [SmartStoreServer], followed by the properties
    of the specification that concern them.

    Python integers are unbounded and are modelled by [Z]; a [bytes] object is
    a [list byte], so that every element is in 0..255 by its type; a [str] is
    the list of its code points. *)

From Stdlib Require Import Strings.Byte.
From Stdlib Require Import ZArith List Bool Lia String Ascii Sorted Permutation.
From Stdlib Require DecimalString.
Import ListNotations.
Local Open Scope Z_scope.

Set Implicit Arguments.

(** ** The Python values and builtins the program uses *)

Module Py.

(** The exceptions that the modelled code can raise. *)
Inductive exn : Type :=
| ValueError (msg : string)
| IndexError
| StructError
| TypeError
| UnicodeEncodeError.

(** The outcome of running a piece of code: a value, a raised exception,
    or [Fuel] when the bound given to a [while] loop of the model ran out
    (shown below never to happen for [parse]). *)
Inductive outcome (A : Type) : Type :=
| Ok (a : A)
| Raise (e : exn)
| Fuel.
Arguments Raise {A} e.
Arguments Fuel {A}.

Definition bind {A B} (c : outcome A) (k : A -> outcome B) : outcome B :=
  match c with
  | Ok a => k a
  | Raise e => Raise e
  | Fuel => Fuel
  end.

Definition bytes := list Byte.byte.

Definition len {A} (l : list A) : Z := Z.of_nat (List.length l).

(** The integer value of a byte, as [data[i]] gives it. *)
Definition byte_val (b : Byte.byte) : Z := Z.of_N (Byte.to_N b).

(** The byte whose value is the low 8 bits of [z]. *)
Definition byte_of (z : Z) : Byte.byte :=
  match Byte.of_N (Z.to_N (z mod 256)) with
  | Some b => b
  | None => Byte.x00
  end.

(** [l[i]]: a negative index counts from the end; out of range raises. *)
Definition getitem {A} (l : list A) (i : Z) : outcome A :=
  let j := if i <? 0 then i + len l else i in
  if (0 <=? j) && (j <? len l)
  then match nth_error l (Z.to_nat j) with
       | Some a => Ok a
       | None => Raise IndexError
       end
  else Raise IndexError.

(** A slice bound as Python normalises it: negative bounds count from the
    end, and every bound is clamped to [0, len]. *)
Definition clamp (n i : Z) : Z :=
  if i <? 0 then Z.max 0 (i + n) else Z.min i n.

(** [l[lo:hi]] *)
Definition slice {A} (l : list A) (lo hi : Z) : list A :=
  let lo' := clamp (len l) lo in
  let hi' := clamp (len l) hi in
  firstn (Z.to_nat (hi' - lo')) (skipn (Z.to_nat lo') l).

(** [l[lo:]] *)
Definition slice_from {A} (l : list A) (lo : Z) : list A :=
  skipn (Z.to_nat (clamp (len l) lo)) l.

(** [struct.unpack('!H', s)[0]]: exactly two bytes, big-endian. *)
Definition unpack_H (s : bytes) : outcome Z :=
  match s with
  | [hi; lo] => Ok (byte_val hi * 256 + byte_val lo)
  | _ => Raise StructError
  end.

(** [struct.unpack('!BBH', s)]: exactly four bytes. *)
Definition unpack_BBH (s : bytes) : outcome (Z * Z * Z) :=
  match s with
  | [b0; b1; hi; lo] =>
      Ok (byte_val b0, byte_val b1, byte_val hi * 256 + byte_val lo)
  | _ => Raise StructError
  end.

(** [struct.pack('!BBH', a, b, c)]: every argument must fit its format. *)
Definition pack_BBH (a b c : Z) : outcome bytes :=
  if (0 <=? a) && (a <=? 255) && (0 <=? b) && (b <=? 255)
     && (0 <=? c) && (c <=? 65535)
  then Ok [byte_of a; byte_of b; byte_of (Z.shiftr c 8); byte_of c]
  else Raise StructError.

(** [bytes([x])] *)
Definition bytes_of_int (x : Z) : outcome bytes :=
  if (0 <=? x) && (x <? 256)
  then Ok [byte_of x]
  else Raise (ValueError "bytes must be in range(0, 256)").

(** [a < b] on [bytes]: lexicographic on the byte values, a proper prefix
    being smaller. *)
Fixpoint bytes_lt (a b : bytes) : bool :=
  match a, b with
  | _, [] => false
  | [], _ :: _ => true
  | x :: a', y :: b' =>
      if byte_val x <? byte_val y then true
      else if byte_val y <? byte_val x then false
      else bytes_lt a' b'
  end.

(** [a < b] on tuples [(int, bytes)]: the first components decide unless
    they are equal. *)
Definition tuple_lt (a b : Z * bytes) : bool :=
  if fst a <? fst b then true
  else if fst b <? fst a then false
  else bytes_lt (snd a) (snd b).

(** [sorted(l)] on a list of such tuples. Python's sort is stable and uses
    [<] only; a stable insertion sort returns the same list. *)
Fixpoint insert_sorted (x : Z * bytes) (l : list (Z * bytes)) :=
  match l with
  | [] => [x]
  | y :: l' => if tuple_lt y x then y :: insert_sorted x l' else x :: l
  end.

Definition sorted (l : list (Z * bytes)) : list (Z * bytes) :=
  fold_right insert_sorted [] l.

(** A [str], by its code points (each in 0..0x10FFFF). *)
Definition str := list Z.

(** A string literal of the source (ASCII). *)
Fixpoint lit (s : string) : str :=
  match s with
  | EmptyString => []
  | String c s' => Z.of_N (N_of_ascii c) :: lit s'
  end.

(** The UTF-8 encoding of one code point; surrogates cannot be encoded. *)
Definition utf8_char (c : Z) : outcome bytes :=
  if c <? 0x80 then Ok [byte_of c]
  else if c <? 0x800 then
    Ok [byte_of (Z.lor 0xC0 (Z.shiftr c 6));
        byte_of (Z.lor 0x80 (Z.land c 0x3F))]
  else if c <? 0x10000 then
    if (0xD800 <=? c) && (c <=? 0xDFFF) then Raise UnicodeEncodeError
    else
      Ok [byte_of (Z.lor 0xE0 (Z.shiftr c 12));
          byte_of (Z.lor 0x80 (Z.land (Z.shiftr c 6) 0x3F));
          byte_of (Z.lor 0x80 (Z.land c 0x3F))]
  else
    Ok [byte_of (Z.lor 0xF0 (Z.shiftr c 18));
        byte_of (Z.lor 0x80 (Z.land (Z.shiftr c 12) 0x3F));
        byte_of (Z.lor 0x80 (Z.land (Z.shiftr c 6) 0x3F));
        byte_of (Z.lor 0x80 (Z.land c 0x3F))].

(** [s.encode('utf-8')] *)
Fixpoint encode_utf8 (s : str) : outcome bytes :=
  match s with
  | [] => Ok []
  | c :: s' =>
      bind (utf8_char c) (fun b =>
      bind (encode_utf8 s') (fun bs => Ok (b ++ bs)))
  end.

(** [sep.join(l)] *)
Fixpoint join (sep : str) (l : list str) : str :=
  match l with
  | [] => []
  | [s] => s
  | s :: l' => s ++ sep ++ join sep l'
  end.

End Py.

Import Py.

Declare Scope py_scope.
Delimit Scope py_scope with py.
Notation "x <- c ;; k" := (bind c (fun x => k))
  (at level 61, c at next level, right associativity) : py_scope.
Notation "' pat <- c ;; k" := (bind c (fun x => match x with pat => k end))
  (at level 61, pat pattern, c at next level, right associativity) : py_scope.
Local Open Scope py_scope.

(** ** The capacity ledger: class [StoreStats] *)

Record StoreStats : Type := mkStoreStats {
  total_entrants : Z;
  customers_in_store : Z;
  max_capacity : Z
}.

(** [StoreStats.__init__] *)
Definition StoreStats_init : StoreStats :=
  {| total_entrants := 0; customers_in_store := 0; max_capacity := 10 |}.

(** Each method body runs under [self.lock], so it is one atomic step from a
    ledger state to a result and a new state. *)

(** [StoreStats.can_enter] *)
Definition can_enter (self : StoreStats) : bool :=
  customers_in_store self <? max_capacity self.

(** [StoreStats.add_customer] *)
Definition add_customer (self : StoreStats) : bool * StoreStats :=
  if customers_in_store self <? max_capacity self then
    (true, {| total_entrants := total_entrants self + 1;
              customers_in_store := customers_in_store self + 1;
              max_capacity := max_capacity self |})
  else (false, self).

(** [StoreStats.remove_customer] *)
Definition remove_customer (self : StoreStats) : bool * StoreStats :=
  if 0 <? customers_in_store self then
    (true, {| total_entrants := total_entrants self;
              customers_in_store := customers_in_store self - 1;
              max_capacity := max_capacity self |})
  else (false, self).

(** [StoreStats.display]: the three numbers it prints. *)
Definition display (self : StoreStats) : Z * Z * Z :=
  (total_entrants self, customers_in_store self,
   max_capacity self - customers_in_store self).

(** A sequence of ledger calls, in the order the lock serialises them. *)
Inductive ledger_op : Type := TryEnter | TryLeave.

Definition ledger_step (op : ledger_op) (s : StoreStats) : bool * StoreStats :=
  match op with
  | TryEnter => add_customer s
  | TryLeave => remove_customer s
  end.

Fixpoint ledger_run (ops : list ledger_op) (s : StoreStats) : StoreStats :=
  match ops with
  | [] => s
  | op :: ops' => ledger_run ops' (snd (ledger_step op s))
  end.

(** ** The protocol constants: [CoAPType], [CoAPCode], [CoAPOption] *)

Module CoAPType.
Definition CON : Z := 0.
Definition NON : Z := 1.
Definition ACK : Z := 2.
Definition RST : Z := 3.
End CoAPType.

Module CoAPCode.
Definition EMPTY : Z := 0.
Definition GET : Z := 1.
Definition POST : Z := 2.
Definition PUT : Z := 3.
Definition DELETE : Z := 4.
Definition CREATED : Z := 65.
Definition DELETED : Z := 66.
Definition VALID : Z := 67.
Definition CHANGED : Z := 68.
Definition CONTENT : Z := 69.
Definition NOT_FOUND : Z := 132.
Definition METHOD_NOT_ALLOWED : Z := 133.
Definition INTERNAL_SERVER_ERROR : Z := 160.
End CoAPCode.

Module CoAPOption.
Definition URI_PATH : Z := 11.
Definition CONTENT_FORMAT : Z := 12.
End CoAPOption.

(** ** The message: class [CoAPMessage] *)

(** The peer's address, as [recvfrom] returns it: host and port. *)
Definition address : Type := (string * Z)%type.

Record CoAPMessage : Type := mkCoAPMessage {
  version : Z;
  type : Z;
  token_length : Z;
  code : Z;
  message_id : Z;
  token : bytes;
  options : list (Z * bytes);
  payload : bytes;
  source : option address
}.

(** [CoAPMessage.__init__] *)
Definition CoAPMessage_init : CoAPMessage :=
  {| version := 1; type := 0; token_length := 0; code := 0; message_id := 0;
     token := []; options := []; payload := []; source := None |}.

(** Attribute assignments [message.f = v]. *)
Definition set_version (m : CoAPMessage) (v : Z) : CoAPMessage :=
  {| version := v; type := type m; token_length := token_length m;
     code := code m; message_id := message_id m; token := token m;
     options := options m; payload := payload m; source := source m |}.

Definition set_type (m : CoAPMessage) (t : Z) : CoAPMessage :=
  {| version := version m; type := t; token_length := token_length m;
     code := code m; message_id := message_id m; token := token m;
     options := options m; payload := payload m; source := source m |}.

Definition set_token_length (m : CoAPMessage) (n : Z) : CoAPMessage :=
  {| version := version m; type := type m; token_length := n;
     code := code m; message_id := message_id m; token := token m;
     options := options m; payload := payload m; source := source m |}.

Definition set_code (m : CoAPMessage) (c : Z) : CoAPMessage :=
  {| version := version m; type := type m; token_length := token_length m;
     code := c; message_id := message_id m; token := token m;
     options := options m; payload := payload m; source := source m |}.

Definition set_message_id (m : CoAPMessage) (i : Z) : CoAPMessage :=
  {| version := version m; type := type m; token_length := token_length m;
     code := code m; message_id := i; token := token m;
     options := options m; payload := payload m; source := source m |}.

Definition set_token (m : CoAPMessage) (tok : bytes) : CoAPMessage :=
  {| version := version m; type := type m; token_length := token_length m;
     code := code m; message_id := message_id m; token := tok;
     options := options m; payload := payload m; source := source m |}.

Definition set_payload (m : CoAPMessage) (p : bytes) : CoAPMessage :=
  {| version := version m; type := type m; token_length := token_length m;
     code := code m; message_id := message_id m; token := token m;
     options := options m; payload := p; source := source m |}.

Definition set_source (m : CoAPMessage) (a : option address) : CoAPMessage :=
  {| version := version m; type := type m; token_length := token_length m;
     code := code m; message_id := message_id m; token := token m;
     options := options m; payload := payload m; source := a |}.

(** [message.options.append(o)] *)
Definition append_option (m : CoAPMessage) (o : Z * bytes) : CoAPMessage :=
  {| version := version m; type := type m; token_length := token_length m;
     code := code m; message_id := message_id m; token := token m;
     options := options m ++ [o]; payload := payload m; source := source m |}.

(** The extension rule that [parse] applies first to the delta nibble and
    then to the length nibble: 13 reads one more byte, 14 reads two, any other
    nibble (15 included) stands for itself. It returns the value and the new
    position. *)
Definition read_extended (data : bytes) (pos nibble : Z) : outcome (Z * Z) :=
  if nibble =? 13 then
    b <- getitem data pos ;;
    Ok (byte_val b + 13, pos + 1)
  else if nibble =? 14 then
    v <- unpack_H (slice data pos (pos + 2)) ;;
    Ok (v + 269, pos + 2)
  else Ok (nibble, pos).

(** The [while pos < len(data)] loop of [parse]. Every iteration advances
    [pos], so [fuel] bounds the number of iterations. *)
Fixpoint parse_loop (fuel : nat) (data : bytes) (pos option_number : Z)
    (message : CoAPMessage) : outcome CoAPMessage :=
  if pos <? len data then
    match fuel with
    | O => Fuel
    | S fuel' =>
        b <- getitem data pos ;;
        if byte_val b =? 0xFF then
          let pos := pos + 1 in
          Ok (set_payload message (slice_from data pos))
        else
          let option_delta := Z.land (Z.shiftr (byte_val b) 4) 0x0F in
          let option_length := Z.land (byte_val b) 0x0F in
          let pos := pos + 1 in
          '(option_delta, pos) <- read_extended data pos option_delta ;;
          '(option_length, pos) <- read_extended data pos option_length ;;
          let option_number := option_number + option_delta in
          let option_value := slice data pos (pos + option_length) in
          let pos := pos + option_length in
          parse_loop fuel' data pos option_number
            (append_option message (option_number, option_value))
    end
  else Ok message.

(** [CoAPMessage.parse] *)
Definition parse (data : bytes) : outcome CoAPMessage :=
  if len data <? 4 then Raise (ValueError "Message too short")
  else
    let message := CoAPMessage_init in
    '(h0, h1, h2) <- unpack_BBH (slice data 0 4) ;;
    let message := set_version message (Z.land (Z.shiftr h0 6) 0x03) in
    let message := set_type message (Z.land (Z.shiftr h0 4) 0x03) in
    let message := set_token_length message (Z.land h0 0x0F) in
    let message := set_code message h1 in
    let message := set_message_id message h2 in
    let message :=
      if 0 <? token_length message
      then set_token message (slice data 4 (4 + token_length message))
      else message in
    let pos := 4 + token_length message in
    parse_loop (List.length data) data pos 0 message.

(** The [payload] argument of [create_response]: [bytes] or [str]. *)
Inductive payload_arg : Type :=
| Bytes (b : bytes)
| Str (s : str).

(** [payload if isinstance(payload, bytes) else payload.encode('utf-8')] *)
Definition payload_bytes (payload : payload_arg) : outcome bytes :=
  match payload with
  | Bytes b => Ok b
  | Str s => encode_utf8 s
  end.

(** [CoAPMessage.create_response] *)
Definition create_response (self : CoAPMessage) (code : Z)
    (payload : payload_arg) : outcome CoAPMessage :=
  let response := CoAPMessage_init in
  let response := set_version response 1 in
  let response := set_type response CoAPType.ACK in
  let response := set_token_length response (len (token self)) in
  let response := set_code response code in
  let response := set_message_id response (message_id self) in
  let response := set_token response (token self) in
  p <- payload_bytes payload ;;
  let response := set_payload response p in
  Ok response.

(** The [for option in sorted(self.options)] loop of [serialize]. *)
Fixpoint serialize_options (opts : list (Z * bytes)) (current_option : Z)
    (data : bytes) : outcome bytes :=
  match opts with
  | [] => Ok data
  | (option_number, option_value) :: rest =>
      let option_delta := option_number - current_option in
      let current_option := option_number in
      let option_length := len option_value in
      let option_header :=
        Z.lor (Z.shiftl (Z.land option_delta 0x0F) 4)
              (Z.land option_length 0x0F) in
      h <- bytes_of_int option_header ;;
      let data := data ++ h in
      let data := data ++ option_value in
      serialize_options rest current_option data
  end.

(** [CoAPMessage.serialize] *)
Definition serialize (self : CoAPMessage) : outcome bytes :=
  let header :=
    Z.lor (Z.lor (Z.shiftl (Z.land (version self) 0x03) 6)
                 (Z.shiftl (Z.land (type self) 0x03) 4))
          (Z.land (token_length self) 0x0F) in
  data <- pack_BBH header (code self) (message_id self) ;;
  let data := if 0 <? token_length self then data ++ token self else data in
  data <- serialize_options (sorted (options self)) 0 data ;;
  let data :=
    match payload self with
    | [] => data
    | _ :: _ => (data ++ [Byte.xff]) ++ payload self
    end in
  Ok data.

(** [CoAPMessage.get_uri_path]. The text of one segment is what
    [option[1].decode('utf-8')] gives, or [str(option[1])] when that raises;
    it is a total function of the segment's bytes, taken here as
    [segment_text]. *)
Section UriPath.
Variable segment_text : bytes -> str.

Definition get_uri_path (self : CoAPMessage) : str :=
  let uri_path :=
    map (fun option => segment_text (snd option))
        (filter (fun option => fst option =? CoAPOption.URI_PATH)
                (options self)) in
  join (lit "/") uri_path.

End UriPath.

(** ** The server: classes [CustomCoAPServer] and [SmartStoreServer] *)

(** What a handler can change: the ledger, the datagrams handed to
    [socket.sendto] and the statistics printed by [display]. Logging is left
    out. *)
Record SmartStoreServer : Type := mkServer {
  store_stats : StoreStats;
  sent : list (bytes * address);
  console : list (Z * Z * Z)
}.

(** A method of the server: it may raise, and what it changed before
    raising stays changed. *)
Definition method (A : Type) : Type :=
  SmartStoreServer -> outcome A * SmartStoreServer.

Definition ret {A} (a : A) : method A := fun self => (Ok a, self).

Definition mbind {A B} (c : method A) (k : A -> method B) : method B :=
  fun self =>
    match c self with
    | (Ok a, self') => k a self'
    | (Raise e, self') => (Raise e, self')
    | (Fuel, self') => (Fuel, self')
    end.

(** A value computed without touching the server. *)
Definition lift {A} (c : outcome A) : method A := fun self => (c, self).

(** A call [self.store_stats.f()]. *)
Definition on_stats {A} (f : StoreStats -> A * StoreStats) : method A :=
  fun self =>
    let (a, st) := f (store_stats self) in
    (Ok a, {| store_stats := st; sent := sent self;
              console := console self |}).

(** [self.socket.sendto(wire, addr)]; an address of [None] is a type
    error. *)
Definition sendto (wire : bytes) (addr : option address) : method unit :=
  fun self =>
    match addr with
    | Some a =>
        (Ok tt, {| store_stats := store_stats self;
                   sent := sent self ++ [(wire, a)];
                   console := console self |})
    | None => (Raise TypeError, self)
    end.

(** [self.store_stats.display()] *)
Definition show_stats : method unit :=
  fun self =>
    (Ok tt, {| store_stats := store_stats self; sent := sent self;
               console := console self ++ [display (store_stats self)] |}).

Declare Scope method_scope.
Delimit Scope method_scope with method.
Notation "x <- c ;; k" := (mbind c (fun x => k))
  (at level 61, c at next level, right associativity) : method_scope.
Notation "c ;; k" := (mbind c (fun _ => k))
  (at level 61, right associativity) : method_scope.

(** [CustomCoAPServer.send_response] *)
Definition send_response (message : CoAPMessage) (code : Z)
    (payload : payload_arg) : method unit :=
  (response <- lift (create_response message code payload) ;;
   wire <- lift (serialize response) ;;
   sendto wire (source message))%method.

(** [SmartStoreServer.handle_entry_request] *)
Definition handle_entry_request (message : CoAPMessage) : method unit :=
  (ok <- on_stats (fun s => (can_enter s, s)) ;;
   (if ok : bool then
      added <- on_stats add_customer ;;
      if added : bool then
        send_response message CoAPCode.CONTENT (Str (lit "allowed"))
      else
        send_response message CoAPCode.CONTENT (Str (lit "denied"))
    else
      send_response message CoAPCode.CONTENT (Str (lit "denied"))) ;;
   show_stats)%method.

(** [SmartStoreServer.handle_exit_request] *)
Definition handle_exit_request (message : CoAPMessage) : method unit :=
  (removed <- on_stats remove_customer ;;
   (if removed : bool then
      send_response message CoAPCode.CHANGED (Str (lit "success"))
    else
      send_response message CoAPCode.CHANGED (Str (lit "error"))) ;;
   show_stats)%method.

(** What [CustomCoAPServer.run] does with a datagram before dispatching:
    it parses it and records where it came from. *)
Definition receive (data : bytes) (addr : address) : outcome CoAPMessage :=
  message <- parse data ;;
  Ok (set_source message (Some addr)).

(** ** The dispatcher: [handle_message] and the loop of [run] *)

(** [a == b] on [str] *)
Fixpoint str_eqb (a b : str) : bool :=
  match a, b with
  | [], [] => true
  | x :: a', y :: b' => (x =? y) && str_eqb a' b'
  | _, _ => false
  end.

(** [s.startswith(p)] *)
Fixpoint starts_with (p s : str) : bool :=
  match p, s with
  | [], _ => true
  | _ :: _, [] => false
  | x :: p', y :: s' => (x =? y) && starts_with p' s'
  end.

(** [needle in hay] on [str]: [needle] occurs somewhere in [hay]. *)
Fixpoint contains (needle hay : str) : bool :=
  starts_with needle hay
  || match hay with
     | [] => false
     | _ :: hay' => contains needle hay'
     end.

(** [try: body except Exception as e: handler(e)] *)
Definition try_except {A} (body : method A) (handler : exn -> method A)
    : method A :=
  fun self =>
    match body self with
    | (Ok a, self') => (Ok a, self')
    | (Raise e, self') => handler e self'
    | (Fuel, self') => (Fuel, self')
    end.

(** [CustomCoAPServer.handle_message]: the default handler echoes. *)
Definition CustomCoAPServer_handle_message (message : CoAPMessage)
    : method unit :=
  send_response message CoAPCode.CONTENT (Str (lit "Echo")).

(** The dispatcher reads three things off Python's text functions: the text
    of a path segment ([segment_text], as in [get_uri_path]), [s.lower()]
    and [str(e)] of an exception. They are taken as they are. *)
Section Dispatcher.
Variable segment_text : bytes -> str.
Variable lower : str -> str.
Variable exn_text : exn -> str.

(** The loop of [handle_message] over the options: the text of the last
    Uri-Path option, "unknown" when there is none. *)
Definition last_path (message : CoAPMessage) : str :=
  fold_left
    (fun path option =>
       if fst option =? CoAPOption.URI_PATH then segment_text (snd option)
       else path)
    (options message) (lit "unknown").

(** The test that [handle_message] makes with the word "entry" for a GET
    and with the word "exit" for a PUT: the word is looked for in the
    lower-cased URI path when that is not empty, and then in the lower-cased
    last segment. *)
Definition route_matches (word uri_path path : str) : bool :=
  let matched := false in
  let matched :=
    match uri_path with
    | [] => matched
    | _ :: _ => contains word (lower uri_path)
    end in
  let matched :=
    if negb matched
    then str_eqb (lower path) word || contains word (lower path)
    else matched in
  matched.

(** [SmartStoreServer.handle_message] *)
Definition handle_message (message : CoAPMessage) : method unit :=
  try_except
    (let uri_path := get_uri_path segment_text message in
     let path := last_path message in
     if code message =? CoAPCode.GET then
       if route_matches (lit "entry") uri_path path
       then handle_entry_request message
       else send_response message CoAPCode.CONTENT
              (Str (lit "Debug response"))
     else if code message =? CoAPCode.PUT then
       if route_matches (lit "exit") uri_path path
       then handle_exit_request message
       else send_response message CoAPCode.CHANGED
              (Str (lit "Debug PUT response"))
     else
       send_response message CoAPCode.METHOD_NOT_ALLOWED (Str (lit "")))
    (fun e =>
       send_response message CoAPCode.INTERNAL_SERVER_ERROR
         (Str (exn_text e))).

(** What the loop of [CustomCoAPServer.run] does with one datagram that
    [recvfrom] returned: it parses it, records the sender and dispatches; an
    exception on the way is logged and the loop goes on. *)
Definition process_datagram (data : bytes) (addr : address) : method unit :=
  try_except
    (fun self =>
       match parse data with
       | Ok message => handle_message (set_source message (Some addr)) self
       | Raise e => (Raise e, self)
       | Fuel => (Fuel, self)
       end)
    (fun _ => ret tt).

(** The loop of [run] over the datagrams received, in their order. *)
Fixpoint serve (datagrams : list (bytes * address)) : method unit :=
  match datagrams with
  | [] => ret tt
  | (data, addr) :: rest =>
      mbind (process_datagram data addr) (fun _ => serve rest)
  end.

End Dispatcher.

(** ** The text of a message: [CoAPMessage.__str__] *)

(** [str(n)] for an integer: its decimal digits, after a minus sign when it
    is negative. *)
Definition int_text (n : Z) : str :=
  lit (DecimalString.NilZero.string_of_int (Z.to_int n)).

(** [f"{n:02d}"]: the decimal text, with a zero in front when it is a
    single character. *)
Definition int_text_02 (n : Z) : str :=
  let t := int_text n in
  if len t <? 2 then lit "0" ++ t else t.

(** [b.hex()]: two lower-case hexadecimal digits for each byte. *)
Definition hex_digit (d : Z) : Z :=
  nth (Z.to_nat d) (lit "0123456789abcdef") 0.

Fixpoint hex (b : bytes) : str :=
  match b with
  | [] => []
  | x :: b' =>
      hex_digit (Z.shiftr (byte_val x) 4)
      :: hex_digit (Z.land (byte_val x) 0x0F) :: hex b'
  end.

(** [__str__] formats the payload with [str(bytes)], taken here as
    [bytes_text], and the path with [get_uri_path]. *)
Section MessageText.
Variable segment_text : bytes -> str.
Variable bytes_text : bytes -> str.

(** The first part of [__str__]: the text of the code. *)
Definition code_text (code : Z) : outcome str :=
  if code =? 0 then Ok (lit "Empty")
  else if code <=? 4 then
    let methods :=
      [lit "Empty"; lit "GET"; lit "POST"; lit "PUT"; lit "DELETE"] in
    getitem methods code
  else
    let class_str := Z.shiftr code 5 in
    let detail_str := Z.land code 0x1F in
    Ok (int_text class_str ++ lit "." ++ int_text_02 detail_str).

(** [CoAPMessage.__str__] *)
Definition CoAPMessage_str (self : CoAPMessage) : outcome str :=
  code_str <- code_text (code self) ;;
  type_str <-
    getitem [lit "CON"; lit "NON"; lit "ACK"; lit "RST"] (type self) ;;
  Ok (lit "CoAP " ++ type_str ++ lit " [" ++ int_text (message_id self)
      ++ lit "], " ++ code_str ++ lit ", Token: " ++ hex (token self)
      ++ lit ", Path: " ++ get_uri_path segment_text self
      ++ lit ", Payload: " ++ bytes_text (payload self)).

End MessageText.

(** ** Messages as objects

    In Python a message is an object and [create_response] writes to the
    attributes of one. To tell which object it writes to, the messages are put
    in a store: a reference is a position in it, [CoAPMessage()] allocates at
    the end, and [r.f = v] rewrites the object at [r]. *)

Definition store : Type := list CoAPMessage.
Definition ref : Type := nat.

(** The object a reference points to (every reference the program holds was
    allocated, so the default is never used). *)
Definition deref (h : store) (r : ref) : CoAPMessage :=
  nth r h CoAPMessage_init.

(** [CoAPMessage()] *)
Definition new_message (h : store) : ref * store :=
  (List.length h, h ++ [CoAPMessage_init]).

(** [r.f = v], for the setter [f] *)
Fixpoint assign (h : store) (r : ref) (f : CoAPMessage -> CoAPMessage)
    : store :=
  match h, r with
  | [], _ => []
  | m :: h', O => f m :: h'
  | m :: h', S r' => m :: assign h' r' f
  end.

(** [CoAPMessage.create_response], statement by statement on the store. *)
Definition create_response_obj (self : ref) (code : Z)
    (payload : payload_arg) (h : store) : outcome ref * store :=
  let (response, h) := new_message h in
  let h := assign h response (fun m => set_version m 1) in
  let h := assign h response (fun m => set_type m CoAPType.ACK) in
  let h :=
    assign h response
      (fun m => set_token_length m (len (token (deref h self)))) in
  let h := assign h response (fun m => set_code m code) in
  let h :=
    assign h response (fun m => set_message_id m (message_id (deref h self))) in
  let h := assign h response (fun m => set_token m (token (deref h self))) in
  match payload_bytes payload with
  | Ok p =>
      let h := assign h response (fun m => set_payload m p) in
      (Ok response, h)
  | Raise e => (Raise e, h)
  | Fuel => (Fuel, h)
  end.

(** ** The notions used to state the properties *)

(** The ledger invariant. *)
Definition ledger_ok (s : StoreStats) : Prop :=
  0 <= customers_in_store s <= max_capacity s.

(** The number of calls of the kind [op] that return [True] along a run of
    the ledger. *)
Fixpoint accepted (op : ledger_op) (ops : list ledger_op) (s : StoreStats)
    : Z :=
  match ops with
  | [] => 0
  | o :: ops' =>
      (match op, o with
       | TryEnter, TryEnter | TryLeave, TryLeave =>
           if fst (ledger_step o s) then 1 else 0
       | _, _ => 0
       end)
      + accepted op ops' (snd (ledger_step o s))
  end.

(** The bytes that a list of options takes on the wire as [serialize]
    writes them: one header byte and the value, for each. *)
Fixpoint options_size (opts : list (Z * bytes)) : Z :=
  match opts with
  | [] => 0
  | o :: rest => 1 + len (snd o) + options_size rest
  end.

(** The message [m] with the option list [opts] in place of its own. *)
Definition with_options (m : CoAPMessage) (opts : list (Z * bytes))
    : CoAPMessage :=
  {| version := version m; type := type m; token_length := token_length m;
     code := code m; message_id := message_id m; token := token m;
     options := opts; payload := payload m; source := source m |}.

(** A message as [run] hands it to the dispatcher: parsed from a datagram
    and stamped with the datagram's sender. *)
Definition received (message : CoAPMessage) (addr : address) : Prop :=
  exists data, receive data addr = Ok message.

(** Between the server states [srv] and [srv'] exactly one datagram went
    out, to [addr], and it decodes to an acknowledgement of [message] (same
    token, same message id) with code [c] and payload [p]. *)
Definition answered (message : CoAPMessage) (addr : address) (c : Z)
    (p : bytes) (srv srv' : SmartStoreServer) : Prop :=
  exists response wire,
    sent srv' = sent srv ++ [(wire, addr)]
    /\ parse wire = Ok response
    /\ type response = CoAPType.ACK /\ code response = c
    /\ payload response = p
    /\ token response = token message
    /\ message_id response = message_id message.

(** The test of [handle_message] for [word] on a message: [route_matches]
    on the message's URI path and last path segment. *)
Definition path_matches (segment_text : bytes -> str) (lower : str -> str)
    (word : string) (message : CoAPMessage) : bool :=
  route_matches lower (lit word) (get_uri_path segment_text message)
    (last_path segment_text message).

(** Whether [parse] returns a message for a buffer. *)
Definition parses (data : bytes) : bool :=
  match parse data with
  | Ok _ => true
  | _ => false
  end.

(** [SmartStoreServer.__init__]: a new ledger, nothing sent, nothing
    displayed. *)
Definition SmartStoreServer_init : SmartStoreServer :=
  {| store_stats := StoreStats_init; sent := []; console := [] |}.

(** Text functions that are right on ASCII, to run the dispatcher on
    examples: the text of a segment of ASCII bytes, the lower case of an
    ASCII string, and no text for an exception. *)
Definition ascii_text (b : bytes) : str := map byte_val b.

Definition ascii_lower (s : str) : str :=
  map (fun c => if (65 <=? c) && (c <=? 90) then c + 32 else c) s.

Definition no_text (e : exn) : str := [].

(** The two nibbles of an option's first byte. *)
Definition delta_nibble (b : byte) : Z :=
  Z.land (Z.shiftr (byte_val b) 4) 0x0F.
Definition length_nibble (b : byte) : Z := Z.land (byte_val b) 0x0F.

(** The message that [parse] holds when it enters its loop, on a buffer
    that starts with the bytes [b0], [b1], [b2], [b3]: the header fields, and
    the token [tok]. *)
Definition header_of (b0 b1 b2 b3 : byte) (tok : bytes) : CoAPMessage :=
  {| version := Z.land (Z.shiftr (byte_val b0) 6) 0x03;
     type := Z.land (Z.shiftr (byte_val b0) 4) 0x03;
     token_length := Z.land (byte_val b0) 0x0F;
     code := byte_val b1;
     message_id := byte_val b2 * 256 + byte_val b3;
     token := tok; options := []; payload := []; source := None |}.

(** The options a message may carry for [serialize] to write them without
    loss: each number at most 12 above the one before (above 0 for the
    first), each value at most 12 bytes long. *)
Fixpoint small_options (cur : Z) (opts : list (Z * bytes)) : Prop :=
  match opts with
  | [] => True
  | (num, value) :: rest =>
      0 <= num - cur <= 12 /\ len value <= 12 /\ small_options num rest
  end.

(** The number of the last option, which the loop of [parse] ends with. *)
Fixpoint last_number (cur : Z) (opts : list (Z * bytes)) : Z :=
  match opts with
  | [] => cur
  | (num, _) :: rest => last_number num rest
  end.

(** The messages of the codec's domain: the header fields fit their bits,
    [token_length] is the length of the token, the options are in the order
    [sorted] gives them and are small, and the message was not received from
    anywhere. *)
Definition carried_faithfully (m : CoAPMessage) : Prop :=
  0 <= version m <= 3 /\ 0 <= type m <= 3
  /\ token_length m = len (token m) /\ len (token m) <= 15
  /\ 0 <= code m <= 255 /\ 0 <= message_id m <= 65535
  /\ source m = None
  /\ sorted (options m) = options m
  /\ small_options 0 (options m).

(** The order of the option numbers. *)
Definition number_le (a b : Z * bytes) : Prop := fst a <= fst b.

(** * Properties *)

(** ** The capacity ledger *)

Lemma add_customer_ok s : ledger_ok s -> ledger_ok (snd (add_customer s)).
Proof.
  unfold ledger_ok, add_customer.
  destruct (customers_in_store s <? max_capacity s) eqn:E; simpl; [|tauto].
  apply Z.ltb_lt in E. lia.
Qed.

Lemma remove_customer_ok s :
  ledger_ok s -> ledger_ok (snd (remove_customer s)).
Proof.
  unfold ledger_ok, remove_customer.
  destruct (0 <? customers_in_store s) eqn:E; simpl; [|tauto].
  apply Z.ltb_lt in E. lia.
Qed.

Lemma ledger_step_ok op s : ledger_ok s -> ledger_ok (snd (ledger_step op s)).
Proof.
  destruct op; simpl; auto using add_customer_ok, remove_customer_ok.
Qed.

Lemma ledger_run_ok ops : forall s, ledger_ok s -> ledger_ok (ledger_run ops s).
Proof.
  induction ops as [|op ops IH]; simpl; intros s Hs; [assumption|].
  apply IH, ledger_step_ok, Hs.
Qed.

Lemma ledger_step_total op s :
  total_entrants s <= total_entrants (snd (ledger_step op s)).
Proof.
  destruct op; simpl; unfold add_customer, remove_customer.
  - destruct (customers_in_store s <? max_capacity s); simpl; lia.
  - destruct (0 <? customers_in_store s); simpl; lia.
Qed.

Lemma ledger_step_false op s :
  fst (ledger_step op s) = false -> snd (ledger_step op s) = s.
Proof.
  destruct op; simpl; unfold add_customer, remove_customer.
  - destruct (customers_in_store s <? max_capacity s); simpl; congruence.
  - destruct (0 <? customers_in_store s); simpl; congruence.
Qed.

(** C2. Starting from the initial ledger, after every sequence of
    [add_customer] (try_enter) and [remove_customer] (try_leave) calls the
    number of customers in the store is between 0 and [max_capacity]; along
    any sequence of calls, from any state, [total_entrants] does not decrease;
    a call that returns [False] leaves the ledger as it was; leaving an empty
    store returns [False] and entering a full one returns [False], both
    without any change. *)
Theorem ledger_invariant :
  (forall ops,
      let s := ledger_run ops StoreStats_init in
      0 <= customers_in_store s <= max_capacity s)
  /\ (forall ops s, total_entrants s <= total_entrants (ledger_run ops s))
  /\ (forall op s,
        fst (ledger_step op s) = false -> snd (ledger_step op s) = s)
  /\ (forall s, customers_in_store s = 0 -> remove_customer s = (false, s))
  /\ (forall s,
        customers_in_store s = max_capacity s -> add_customer s = (false, s)).
Proof.
  repeat split.
  - apply (ledger_run_ok ops). unfold ledger_ok; simpl; lia.
  - apply (ledger_run_ok ops). unfold ledger_ok; simpl; lia.
  - induction ops as [|op ops IH]; simpl; intros s; [lia|].
    etransitivity; [apply (ledger_step_total op)|apply IH].
  - apply ledger_step_false.
  - intros s H. unfold remove_customer. rewrite H. reflexivity.
  - intros s H. unfold add_customer. rewrite H, Z.ltb_irrefl. reflexivity.
Qed.

(** ** The message object and [create_response] *)

Lemma assign_last (h : store) m f :
  assign (h ++ [m]) (List.length h) f = h ++ [f m].
Proof. induction h as [|x h IH]; simpl; [reflexivity|now rewrite IH]. Qed.

Lemma deref_old (h : store) l r :
  (r < List.length h)%nat -> deref (h ++ l) r = deref h r.
Proof. intros Hr. unfold deref. now apply app_nth1. Qed.

Lemma deref_new (h : store) m : deref (h ++ [m]) (List.length h) = m.
Proof. unfold deref. now rewrite nth_middle. Qed.

(** What [create_response] returns, field by field. *)
Lemma create_response_value self c pl p :
  payload_bytes pl = Ok p ->
  create_response self c pl =
  Ok {| version := 1; type := CoAPType.ACK;
        token_length := len (token self); code := c;
        message_id := message_id self; token := token self;
        options := []; payload := p; source := None |}.
Proof. intros Hp. unfold create_response. rewrite Hp. reflexivity. Qed.

(** [s.encode('utf-8')] returns or raises: it has no loop of the model. *)
Lemma utf8_char_no_fuel c : utf8_char c <> Fuel.
Proof.
  unfold utf8_char.
  destruct (c <? 0x80); [discriminate|].
  destruct (c <? 0x800); [discriminate|].
  destruct (c <? 0x10000); [|discriminate].
  destruct ((0xD800 <=? c) && (c <=? 0xDFFF)); discriminate.
Qed.

Lemma encode_utf8_no_fuel s : encode_utf8 s <> Fuel.
Proof.
  induction s as [|c s IH]; cbn [encode_utf8]; [discriminate|].
  pose proof (utf8_char_no_fuel c) as Hc.
  destruct (utf8_char c) as [b| |]; cbn [bind]; [|discriminate|congruence].
  destruct (encode_utf8 s) as [bs| |]; cbn [bind];
    [discriminate|discriminate|congruence].
Qed.

(** The store after [create_response] has run to its [return]: the store of
    before with the new object at its end. *)
Lemma create_response_obj_returns (h : store) self c pl p :
  (self < List.length h)%nat ->
  payload_bytes pl = Ok p ->
  create_response_obj self c pl h =
  (Ok (List.length h),
   h ++ [{| version := 1; type := CoAPType.ACK;
            token_length := len (token (deref h self)); code := c;
            message_id := message_id (deref h self);
            token := token (deref h self);
            options := []; payload := p; source := None |}]).
Proof.
  intros Hself Hp.
  unfold create_response_obj, new_message.
  repeat rewrite assign_last. rewrite Hp.
  repeat rewrite deref_old by assumption.
  rewrite assign_last. reflexivity.
Qed.

(** The store after the encoding of a [str] payload has raised: the new
    object is left without a payload, the objects of before are as they
    were. *)
Lemma create_response_obj_raises (h : store) self c pl e :
  (self < List.length h)%nat ->
  payload_bytes pl = Raise e ->
  create_response_obj self c pl h =
  (Raise e,
   h ++ [{| version := 1; type := CoAPType.ACK;
            token_length := len (token (deref h self)); code := c;
            message_id := message_id (deref h self);
            token := token (deref h self);
            options := []; payload := []; source := None |}]).
Proof.
  intros Hself Hp.
  unfold create_response_obj, new_message.
  repeat rewrite assign_last. rewrite Hp.
  repeat rewrite deref_old by assumption.
  reflexivity.
Qed.

(** C9. [create_response] called on a request object with a code and a
    payload returns, for every [bytes] payload [b], a new message object
    whose token and message id are the request's, whose type is ACK
    (Acknowledgement), whose code is the given one and whose payload is [b]
    itself; it writes to the new object only, so the request, like every
    other message that existed before the call, is left as it was, and the
    function [create_response] on message values describes the object
    returned. For a [str] payload [s] the call is the call with the bytes of
    [s.encode('utf-8')] where [s] can be encoded, and raises the encoder's
    exception, with every message of before left as it was, where it
    cannot. *)
Theorem create_response_spec :
  forall (h : store) (self : ref) (c : Z),
    (self < List.length h)%nat ->
    (forall b : bytes,
        exists (response : ref) (h' : store),
          create_response_obj self c (Bytes b) h = (Ok response, h')
          /\ response = List.length h
          /\ token (deref h' response) = token (deref h self)
          /\ message_id (deref h' response) = message_id (deref h self)
          /\ type (deref h' response) = CoAPType.ACK
          /\ code (deref h' response) = c
          /\ payload (deref h' response) = b
          /\ create_response (deref h self) c (Bytes b)
             = Ok (deref h' response)
          /\ forall r, (r < List.length h)%nat -> deref h' r = deref h r)
    /\ (forall s : str,
           match encode_utf8 s with
           | Ok p =>
               create_response_obj self c (Str s) h
               = create_response_obj self c (Bytes p) h
               /\ create_response (deref h self) c (Str s)
                  = create_response (deref h self) c (Bytes p)
           | Raise e =>
               create_response (deref h self) c (Str s) = Raise e
               /\ exists h' : store,
                    create_response_obj self c (Str s) h = (Raise e, h')
                    /\ forall r,
                         (r < List.length h)%nat -> deref h' r = deref h r
           | Fuel => False
           end).
Proof.
  intros h self c Hself. split.
  - intros b.
    rewrite (@create_response_obj_returns h self c (Bytes b) b Hself eq_refl).
    eexists _, _. split; [reflexivity|].
    rewrite deref_new.
    rewrite (@create_response_value (deref h self) c (Bytes b) b eq_refl).
    cbn [token message_id type code payload].
    repeat split; try reflexivity.
    intros r Hr. now apply deref_old.
  - intros s.
    pose proof (@encode_utf8_no_fuel s) as Hfuel.
    destruct (encode_utf8 s) as [p|e|] eqn:Hs; [| |congruence].
    + split.
      * rewrite (@create_response_obj_returns h self c (Str s) p Hself Hs).
        now rewrite
          (@create_response_obj_returns h self c (Bytes p) p Hself eq_refl).
      * rewrite (@create_response_value (deref h self) c (Str s) p Hs).
        now rewrite
          (@create_response_value (deref h self) c (Bytes p) p eq_refl).
    + split.
      * unfold create_response. cbn [payload_bytes]. rewrite Hs. reflexivity.
      * rewrite (@create_response_obj_raises h self c (Str s) e Hself Hs).
        eexists. split; [reflexivity|].
        intros r Hr. now apply deref_old.
Qed.

Lemma create_response_spec_witness :
  (exists (response : ref) (h' : store),
      create_response_obj 0%nat CoAPCode.CONTENT (Bytes ["o"%byte; "k"%byte])
        [set_message_id (set_token CoAPMessage_init ["t"%byte]) 7]
      = (Ok response, h')
      /\ token (deref h' response) = ["t"%byte]
      /\ message_id (deref h' response) = 7
      /\ type (deref h' response) = CoAPType.ACK
      /\ code (deref h' response) = CoAPCode.CONTENT
      /\ payload (deref h' response) = ["o"%byte; "k"%byte]
      /\ deref h' 0%nat
         = set_message_id (set_token CoAPMessage_init ["t"%byte]) 7)
  /\ create_response_obj 0%nat CoAPCode.CONTENT (Str (lit "ok"))
       [set_message_id (set_token CoAPMessage_init ["t"%byte]) 7]
     = create_response_obj 0%nat CoAPCode.CONTENT
         (Bytes ["o"%byte; "k"%byte])
         [set_message_id (set_token CoAPMessage_init ["t"%byte]) 7]
  /\ exists h' : store,
       create_response_obj 0%nat CoAPCode.CONTENT (Str [0xD800])
         [set_message_id (set_token CoAPMessage_init ["t"%byte]) 7]
       = (Raise UnicodeEncodeError, h')
       /\ deref h' 0%nat
          = set_message_id (set_token CoAPMessage_init ["t"%byte]) 7.
Proof.
  destruct (@create_response_spec
              [set_message_id (set_token CoAPMessage_init ["t"%byte]) 7]
              0%nat CoAPCode.CONTENT)
    as [Hbytes Hstr].
  - simpl. lia.
  - split; [|split].
    + destruct (Hbytes ["o"%byte; "k"%byte])
        as (response & h' & Hrun & _ & Htok & Hmid & Hty & Hcode & Hpl
            & _ & Hold).
      exists response, h'.
      split; [exact Hrun|]. split; [exact Htok|]. split; [exact Hmid|].
      split; [exact Hty|]. split; [exact Hcode|]. split; [exact Hpl|].
      apply Hold. simpl. lia.
    + exact (proj1 (Hstr (lit "ok"))).
    + destruct (proj2 (Hstr [0xD800])) as (h' & Hrun & Hold).
      exists h'. split; [exact Hrun|]. apply Hold. simpl. lia.
Defined.

(** C10. The message that [create_response] returns has no options,
    whatever options (URI path segments included) the request carries, so its
    URI path is the empty string. *)
Theorem create_response_no_options :
  forall (segment_text : bytes -> str) (self : CoAPMessage) (c : Z)
         (pl : payload_arg) (response : CoAPMessage),
    create_response self c pl = Ok response ->
    options response = [] /\ get_uri_path segment_text response = lit "".
Proof.
  intros segment_text self c pl response H.
  unfold create_response in H.
  destruct (payload_bytes pl) as [p| |]; simpl in H; try discriminate.
  injection H as <-. split; reflexivity.
Qed.

Lemma create_response_no_options_witness :
  options
    {| version := 1; type := 2; token_length := 0; code := 69;
       message_id := 7; token := []; options := []; payload := [];
       source := None |} = []
  /\ get_uri_path (fun b => map byte_val b)
       {| version := 1; type := 2; token_length := 0; code := 69;
          message_id := 7; token := []; options := []; payload := [];
          source := None |} = lit "".
Proof.
  apply (@create_response_no_options (fun b => map byte_val b)
           {| version := 1; type := 0; token_length := 0; code := 1;
              message_id := 7; token := [];
              options := [(11, ["e"%byte])]; payload := [];
              source := None |}
           69 (Bytes [])).
  reflexivity.
Defined.

(** ** Facts about the Python builtins *)

Lemma byte_val_range b : 0 <= byte_val b < 256.
Proof.
  unfold byte_val. pose proof (Byte.to_N_bounded b). lia.
Qed.

Lemma byte_of_val b : byte_of (byte_val b) = b.
Proof.
  unfold byte_of. pose proof (byte_val_range b) as Hb.
  rewrite Z.mod_small by lia. unfold byte_val.
  now rewrite N2Z.id, Byte.of_to_N.
Qed.

Lemma byte_val_of z : 0 <= z < 256 -> byte_val (byte_of z) = z.
Proof.
  intros Hz. unfold byte_of, byte_val. rewrite Z.mod_small by lia.
  destruct (Byte.of_N (Z.to_N z)) as [b|] eqn:E.
  - apply Byte.to_of_N in E. rewrite E. lia.
  - apply Byte.of_N_None_iff in E. lia.
Qed.

Lemma len_nonneg {A} (l : list A) : 0 <= len l.
Proof. unfold len. lia. Qed.

Lemma len_cons {A} (a : A) l : len (a :: l) = len l + 1.
Proof. unfold len. simpl List.length. lia. Qed.

Lemma len_app {A} (l l' : list A) : len (l ++ l') = len l + len l'.
Proof. unfold len. rewrite length_app. lia. Qed.

Lemma getitem_nonneg {A} (l : list A) i :
  0 <= i ->
  getitem l i =
  match nth_error l (Z.to_nat i) with
  | Some a => Ok a
  | None => Raise IndexError
  end.
Proof.
  intros Hi. unfold getitem.
  destruct (i <? 0) eqn:E; [apply Z.ltb_lt in E; lia|].
  destruct ((0 <=? i) && (i <? len l)) eqn:E'; [reflexivity|].
  destruct (nth_error l (Z.to_nat i)) eqn:En; [|reflexivity].
  exfalso. assert (Hlt : (Z.to_nat i < List.length l)%nat).
  { apply nth_error_Some. congruence. }
  apply andb_false_iff in E'. unfold len in E'.
  destruct E' as [E'|E']; [apply Z.leb_gt in E'|apply Z.ltb_ge in E']; lia.
Qed.

Lemma getitem_Ok_lt {A} (l : list A) i a :
  0 <= i -> getitem l i = Ok a -> i < len l.
Proof.
  intros Hi H. rewrite getitem_nonneg in H by assumption.
  destruct (nth_error l (Z.to_nat i)) eqn:En; [|discriminate].
  assert (Hlt : (Z.to_nat i < List.length l)%nat).
  { apply nth_error_Some. congruence. }
  unfold len. lia.
Qed.

Lemma slice_nonneg {A} (l : list A) lo hi :
  0 <= lo <= hi ->
  slice l lo hi = firstn (Z.to_nat (hi - lo)) (skipn (Z.to_nat lo) l).
Proof.
  intros H. unfold slice, clamp.
  destruct (lo <? 0) eqn:E1; [apply Z.ltb_lt in E1; lia|].
  destruct (hi <? 0) eqn:E2; [apply Z.ltb_lt in E2; lia|].
  pose proof (len_nonneg l) as Hl. unfold len in *.
  destruct (Z.le_gt_cases lo (Z.of_nat (List.length l))) as [Hlo|Hlo].
  - rewrite (Z.min_l lo) by lia.
    destruct (Z.le_gt_cases hi (Z.of_nat (List.length l))) as [Hhi|Hhi].
    + now rewrite Z.min_l by lia.
    + rewrite Z.min_r by lia.
      rewrite !firstn_all2; try reflexivity; rewrite length_skipn; lia.
  - rewrite !Z.min_r by lia. rewrite Z.sub_diag.
    rewrite (skipn_all2 l (n := Z.to_nat lo)) by lia.
    now rewrite firstn_nil.
Qed.

Lemma slice_from_nonneg {A} (l : list A) lo :
  0 <= lo -> slice_from l lo = skipn (Z.to_nat lo) l.
Proof.
  intros H. unfold slice_from, clamp.
  destruct (lo <? 0) eqn:E1; [apply Z.ltb_lt in E1; lia|].
  unfold len.
  destruct (Z.le_gt_cases lo (Z.of_nat (List.length l))) as [Hlo|Hlo].
  - now rewrite Z.min_l by lia.
  - rewrite Z.min_r by lia. rewrite !skipn_all2; try reflexivity; lia.
Qed.

(** Dropping the first element of a list shifts every non-negative index
    and slice bound by one. *)
Lemma getitem_cons {A} (a : A) l i :
  1 <= i -> getitem (a :: l) i = getitem l (i - 1).
Proof.
  intros Hi. rewrite !getitem_nonneg by lia.
  replace (Z.to_nat i) with (S (Z.to_nat (i - 1))) by lia. reflexivity.
Qed.

Lemma slice_cons {A} (a : A) l lo hi :
  1 <= lo <= hi -> slice (a :: l) lo hi = slice l (lo - 1) (hi - 1).
Proof.
  intros H. rewrite !slice_nonneg by lia.
  replace (Z.to_nat lo) with (S (Z.to_nat (lo - 1))) by lia.
  simpl skipn. f_equal. lia.
Qed.

Lemma slice_from_cons {A} (a : A) l lo :
  1 <= lo -> slice_from (a :: l) lo = slice_from l (lo - 1).
Proof.
  intros H. rewrite !slice_from_nonneg by lia.
  replace (Z.to_nat lo) with (S (Z.to_nat (lo - 1))) by lia. reflexivity.
Qed.

Lemma slice_length {A} (l : list A) lo hi :
  0 <= lo <= hi -> len (slice l lo hi) = Z.min (hi - lo) (Z.max 0 (len l - lo)).
Proof.
  intros H. rewrite slice_nonneg by assumption. unfold len.
  rewrite length_firstn, length_skipn. lia.
Qed.

(** ** The option loop of [parse] *)

Lemma land_15 x : Z.land x 15 = x mod 16.
Proof. change 15 with (Z.ones 4). now rewrite Z.land_ones by lia. Qed.

Lemma land_15_range x : 0 <= Z.land x 15 <= 15.
Proof. rewrite land_15. pose proof (Z.mod_pos_bound x 16). lia. Qed.

Lemma unpack_H_nonneg s v : unpack_H s = Ok v -> 0 <= v.
Proof.
  destruct s as [|hi [|lo [|? ?]]]; simpl; try discriminate.
  intros [= <-]. pose proof (byte_val_range hi). pose proof (byte_val_range lo).
  lia.
Qed.

Lemma read_extended_mono data pos nibble v p :
  0 <= nibble -> read_extended data pos nibble = Ok (v, p) ->
  pos <= p /\ 0 <= v.
Proof.
  intros Hn. unfold read_extended.
  destruct (nibble =? 13).
  - destruct (getitem data pos) as [b| |]; simpl; try discriminate.
    intros [= <- <-]. pose proof (byte_val_range b). lia.
  - destruct (nibble =? 14).
    + destruct (unpack_H (slice data pos (pos + 2))) as [w| |] eqn:E; simpl;
        try discriminate.
      intros [= <- <-]. apply unpack_H_nonneg in E. lia.
    + intros [= <- <-]. lia.
Qed.

Lemma read_extended_no_fuel data pos nibble :
  read_extended data pos nibble <> Fuel.
Proof.
  unfold read_extended.
  destruct (nibble =? 13).
  - unfold getitem.
    destruct (_ && _); [destruct (nth_error _ _)|]; simpl; discriminate.
  - destruct (nibble =? 14); [|discriminate].
    unfold unpack_H.
    destruct (slice data pos (pos + 2)) as [|? [|? [|? ?]]]; simpl;
      discriminate.
Qed.

(** One iteration of the loop at an option byte. *)
Lemma parse_loop_step fuel data pos n m b :
  0 <= pos -> getitem data pos = Ok b -> byte_val b <> 255 ->
  parse_loop (S fuel) data pos n m =
  ('(d, p1) <- read_extended data (pos + 1) (delta_nibble b) ;;
   '(l, p2) <- read_extended data p1 (length_nibble b) ;;
   parse_loop fuel data (p2 + l) (n + d)
     (append_option m (n + d, slice data p2 (p2 + l)))).
Proof.
  intros Hpos Hb Hff. pose proof (getitem_Ok_lt _ Hpos Hb) as Hlt.
  simpl parse_loop. apply Z.ltb_lt in Hlt. rewrite Hlt, Hb. simpl bind.
  apply Z.eqb_neq in Hff. rewrite Hff. reflexivity.
Qed.

(** One iteration of the loop at the payload marker. *)
Lemma parse_loop_marker fuel data pos n m b :
  0 <= pos -> getitem data pos = Ok b -> byte_val b = 255 ->
  parse_loop (S fuel) data pos n m =
  Ok (set_payload m (slice_from data (pos + 1))).
Proof.
  intros Hpos Hb Hff. pose proof (getitem_Ok_lt _ Hpos Hb) as Hlt.
  simpl parse_loop. apply Z.ltb_lt in Hlt. rewrite Hlt, Hb. simpl bind.
  rewrite Hff. reflexivity.
Qed.

(** The loop is over when the position is at or past the end. *)
Lemma parse_loop_end fuel data pos n m :
  len data <= pos -> parse_loop fuel data pos n m = Ok m.
Proof.
  intros H. apply Z.ltb_ge in H. destruct fuel; simpl; now rewrite H.
Qed.

Lemma getitem_in_range {A} (l : list A) i :
  0 <= i < len l -> exists a, getitem l i = Ok a.
Proof.
  intros H. rewrite getitem_nonneg by lia.
  destruct (nth_error l (Z.to_nat i)) eqn:E; [eauto|].
  apply nth_error_None in E. unfold len in H. lia.
Qed.

(** The loop never runs out of fuel when given as many iterations as there
    are bytes left. *)
Lemma parse_loop_fuel_enough fuel :
  forall data pos n m,
    0 <= pos -> len data - pos <= Z.of_nat fuel ->
    parse_loop fuel data pos n m <> Fuel.
Proof.
  induction fuel as [|fuel IH]; intros data pos n m Hpos Hfuel.
  - rewrite parse_loop_end by lia. discriminate.
  - destruct (Z.le_gt_cases (len data) pos) as [Hend|Hlt].
    { rewrite parse_loop_end by lia. discriminate. }
    destruct (@getitem_in_range _ data pos) as [b Hb]; [lia|].
    destruct (Z.eq_dec (byte_val b) 255) as [Hff|Hff].
    { rewrite (@parse_loop_marker fuel data pos n m b Hpos Hb Hff). discriminate. }
    rewrite (@parse_loop_step fuel data pos n m b Hpos Hb Hff).
    destruct (read_extended data (pos + 1) (delta_nibble b))
      as [[d p1]| |] eqn:E1; simpl; try discriminate.
    { destruct (read_extended data p1 (length_nibble b))
        as [[l p2]| |] eqn:E2; simpl; try discriminate.
      - apply read_extended_mono in E1; [|apply land_15_range].
        apply read_extended_mono in E2; [|apply land_15_range].
        apply IH; lia.
      - now apply read_extended_no_fuel in E2. }
    now apply read_extended_no_fuel in E1.
Qed.

Lemma slice_0_0 {A} (l : list A) lo : 0 <= lo -> slice l lo lo = [].
Proof.
  intros H. rewrite slice_nonneg by lia. now rewrite Z.sub_diag.
Qed.

(** [parse] on a buffer of four bytes or more: the header is read and the
    loop starts after the token. *)
Lemma parse_unfold b0 b1 b2 b3 rest :
  let data := b0 :: b1 :: b2 :: b3 :: rest in
  let tl := Z.land (byte_val b0) 0x0F in
  parse data =
  parse_loop (List.length data) data (4 + tl) 0
    (header_of b0 b1 b2 b3 (slice data 4 (4 + tl))).
Proof.
  intros data tl. unfold parse.
  assert (Hlen : len data = len rest + 4).
  { unfold data. rewrite !len_cons. lia. }
  pose proof (len_nonneg rest) as Hrest.
  destruct (len data <? 4) eqn:E; [apply Z.ltb_lt in E; lia|].
  replace (slice data 0 4) with [b0; b1; b2; b3]
    by (rewrite slice_nonneg by lia; reflexivity).
  cbn [unpack_BBH bind]. cbv zeta.
  set (m0 := set_message_id _ _).
  change (token_length m0) with tl.
  destruct (0 <? tl) eqn:Etl.
  - reflexivity.
  - assert (tl = 0) as Htl
        by (pose proof (land_15_range (byte_val b0)); apply Z.ltb_ge in Etl;
            unfold tl in *; lia).
    change (token_length m0) with tl.
    replace (4 + tl) with 4 by lia.
    rewrite slice_0_0 by lia. reflexivity.
Qed.

(** [parse] always returns a message or raises. *)
Lemma parse_no_fuel data : parse data <> Fuel.
Proof.
  destruct data as [|b0 [|b1 [|b2 [|b3 rest]]]]; try discriminate.
  rewrite parse_unfold. pose proof (land_15_range (byte_val b0)).
  apply parse_loop_fuel_enough; unfold len; lia.
Qed.

Lemma parse_loop_0 data pos n m :
  pos < len data -> parse_loop 0 data pos n m = Fuel.
Proof. intros H. apply Z.ltb_lt in H. simpl. now rewrite H. Qed.

Lemma read_extended_cons a l pos nibble :
  1 <= pos ->
  read_extended (a :: l) pos nibble =
  ('(v, p) <- read_extended l (pos - 1) nibble ;; Ok (v, p + 1)).
Proof.
  intros Hpos. unfold read_extended.
  destruct (nibble =? 13).
  - rewrite getitem_cons by lia.
    destruct (getitem l (pos - 1)); simpl; try reflexivity.
    do 2 f_equal. lia.
  - destruct (nibble =? 14); [|simpl; do 2 f_equal; lia].
    rewrite slice_cons by lia.
    replace (pos + 2 - 1) with (pos - 1 + 2) by lia.
    destruct (unpack_H (slice l (pos - 1) (pos - 1 + 2))); simpl;
      try reflexivity.
    do 2 f_equal. lia.
Qed.

(** The loop does not look before its position: a byte in front of the
    buffer only shifts the positions. *)
Lemma parse_loop_cons fuel :
  forall a l pos n m,
    1 <= pos ->
    parse_loop fuel (a :: l) pos n m = parse_loop fuel l (pos - 1) n m.
Proof.
  induction fuel as [|fuel IH]; intros a l pos n m Hpos.
  - destruct (Z.le_gt_cases (len (a :: l)) pos) as [Hend|Hlt].
    + rewrite !parse_loop_end; [reflexivity| |assumption].
      rewrite len_cons in Hend. lia.
    + rewrite !parse_loop_0; [reflexivity| |assumption].
      rewrite len_cons in Hlt. lia.
  - destruct (Z.le_gt_cases (len (a :: l)) pos) as [Hend|Hlt].
    { rewrite !parse_loop_end; [reflexivity| |assumption].
      rewrite len_cons in Hend. lia. }
    destruct (@getitem_in_range _ (a :: l) pos) as [b Hb]; [lia|].
    assert (Hb' : getitem l (pos - 1) = Ok b)
      by (rewrite <- Hb; symmetry; apply getitem_cons; lia).
    destruct (Z.eq_dec (byte_val b) 255) as [Hff|Hff].
    { rewrite (@parse_loop_marker fuel (a :: l) pos n m b) by (assumption || lia).
      rewrite (@parse_loop_marker fuel l (pos - 1) n m b) by (assumption || lia).
      rewrite slice_from_cons by lia. do 3 f_equal. lia. }
    rewrite (@parse_loop_step fuel (a :: l) pos n m b) by (assumption || lia).
    rewrite (@parse_loop_step fuel l (pos - 1) n m b) by (assumption || lia).
    rewrite read_extended_cons by lia.
    replace (pos + 1 - 1) with (pos - 1 + 1) by lia.
    destruct (read_extended l (pos - 1 + 1) (delta_nibble b))
      as [[d p1]| |] eqn:E1; simpl; try reflexivity.
    apply read_extended_mono in E1; [|apply land_15_range].
    rewrite read_extended_cons by lia.
    replace (p1 + 1 - 1) with p1 by lia.
    destruct (read_extended l p1 (length_nibble b))
      as [[ln p2]| |] eqn:E2; simpl; try reflexivity.
    apply read_extended_mono in E2; [|apply land_15_range].
    rewrite IH by lia. rewrite slice_cons by lia.
    replace (p2 + 1 + ln - 1) with (p2 + ln) by lia.
    replace (p2 + 1 - 1) with p2 by lia.
    reflexivity.
Qed.

(** The loop changes the options and the payload only, so it commutes
    with an assignment to the version. *)
Lemma parse_loop_set_version fuel :
  forall data pos n m v,
    parse_loop fuel data pos n (set_version m v) =
    (r <- parse_loop fuel data pos n m ;; Ok (set_version r v)).
Proof.
  induction fuel as [|fuel IH]; intros data pos n m v; simpl.
  - destruct (pos <? len data); reflexivity.
  - destruct (pos <? len data); [|reflexivity].
    destruct (getitem data pos) as [b| |]; simpl; try reflexivity.
    destruct (byte_val b =? 255); [reflexivity|].
    destruct (read_extended data (pos + 1) _) as [[d p1]| |]; simpl;
      try reflexivity.
    destruct (read_extended data p1 _) as [[l p2]| |]; simpl;
      try reflexivity.
    apply (IH data (p2 + l) (n + d)
             (append_option m (n + d, slice data p2 (p2 + l))) v).
Qed.

(** ** What [parse] checks and what it does not *)

Lemma slice_whole {A} (l : list A) n : len l <= n -> slice l 0 n = l.
Proof.
  intros H. pose proof (len_nonneg l). rewrite slice_nonneg by lia.
  simpl skipn. apply firstn_all2. unfold len in *. lia.
Qed.

Lemma slice_token b0 b1 b2 b3 (rest : bytes) n :
  0 <= n -> slice (b0 :: b1 :: b2 :: b3 :: rest) 4 (4 + n) = slice rest 0 n.
Proof.
  intros Hn. rewrite !slice_cons by lia. f_equal. lia.
Qed.

(** A buffer that ends within its token, or right after it, decodes to the
    header and the token bytes there are. *)
Lemma parse_header_only b0 b1 b2 b3 rest :
  len rest <= Z.land (byte_val b0) 0x0F ->
  parse (b0 :: b1 :: b2 :: b3 :: rest) = Ok (header_of b0 b1 b2 b3 rest).
Proof.
  intros H. rewrite parse_unfold.
  pose proof (land_15_range (byte_val b0)) as Hr.
  rewrite parse_loop_end by (rewrite !len_cons; lia).
  rewrite slice_token by lia. now rewrite slice_whole.
Qed.

(** C4 (as the code has it). [parse] fails, with the [ValueError] "Message
    too short", on every buffer shorter than 4 bytes. It does not reject any
    token-length nibble: whatever the low 4 bits of byte 0 are, 9 to 15
    included, a buffer made of the 4 header bytes and that many token bytes
    decodes to a message with that token length and that token. *)
Theorem parse_short_and_token_length :
  (forall data : bytes,
      len data < 4 -> parse data = Raise (ValueError "Message too short"))
  /\ (forall (b0 b1 b2 b3 : byte) (tok : bytes),
        len tok = Z.land (byte_val b0) 0x0F ->
        parse (b0 :: b1 :: b2 :: b3 :: tok) = Ok (header_of b0 b1 b2 b3 tok)
        /\ token_length (header_of b0 b1 b2 b3 tok) = len tok
        /\ token (header_of b0 b1 b2 b3 tok) = tok).
Proof.
  split.
  - intros data H. unfold parse. apply Z.ltb_lt in H. now rewrite H.
  - intros b0 b1 b2 b3 tok H. split; [|split].
    + apply parse_header_only. lia.
    + simpl. lia.
    + reflexivity.
Qed.

(** A buffer whose token-length nibble is 9, followed by 9 token bytes, is
    decoded, not rejected. *)
Lemma parse_accepts_token_length_9 :
  Z.land (byte_val x49) 0x0F = 9
  /\ parse [x49; x01; x00; x01;
            x61; x62; x63; x64; x65; x66; x67; x68; x69] =
     Ok {| version := 1; type := 0; token_length := 9; code := 1;
           message_id := 1;
           token := [x61; x62; x63; x64; x65; x66; x67; x68; x69];
           options := []; payload := []; source := None |}.
Proof. split; reflexivity. Qed.

Lemma byte_low6_nibble b :
  Z.land (byte_val b) 0x0F = Z.land (Z.land (byte_val b) 0x3F) 0x0F.
Proof. destruct b; reflexivity. Qed.

Lemma byte_low6_type b :
  Z.land (Z.shiftr (byte_val b) 4) 0x03 = Z.shiftr (Z.land (byte_val b) 0x3F) 4.
Proof. destruct b; reflexivity. Qed.

(** C5 (as the code has it). [parse] stores the top 2 bits of byte 0 as the
    version and never checks them: two buffers that differ in those bits
    only are both rejected with the same exception, or both decoded to
    messages that are equal but for the version, which is the top 2 bits of
    their byte 0. *)
Theorem parse_version_unchecked :
  forall (b0 b0' : byte) (rest : bytes),
    Z.land (byte_val b0) 0x3F = Z.land (byte_val b0') 0x3F ->
    parse (b0' :: rest) =
    (m <- parse (b0 :: rest) ;;
     Ok (set_version m (Z.land (Z.shiftr (byte_val b0') 6) 0x03))).
Proof.
  intros b0 b0' rest H.
  destruct rest as [|b1 [|b2 [|b3 rest]]]; try reflexivity.
  rewrite !parse_unfold.
  assert (Htl : Z.land (byte_val b0') 15 = Z.land (byte_val b0) 15)
    by (rewrite (byte_low6_nibble b0), (byte_low6_nibble b0'); congruence).
  assert (Hty : Z.land (Z.shiftr (byte_val b0') 4) 3 =
                Z.land (Z.shiftr (byte_val b0) 4) 3)
    by (rewrite (byte_low6_type b0), (byte_low6_type b0'); congruence).
  rewrite Htl. pose proof (land_15_range (byte_val b0)) as Hr.
  rewrite !slice_token by lia.
  rewrite (@parse_loop_cons _ b0') by lia.
  rewrite (@parse_loop_cons _ b0) by lia.
  rewrite <- parse_loop_set_version. simpl List.length.
  f_equal. unfold header_of, set_version. simpl. now rewrite Htl, Hty.
Qed.

Lemma parse_version_unchecked_witness :
  parse [xc0; x01; x00; x2a] =
  (m <- parse [x40; x01; x00; x2a] ;;
   Ok (set_version m (Z.land (Z.shiftr (byte_val xc0) 6) 0x03))).
Proof. apply (@parse_version_unchecked x40 xc0). reflexivity. Defined.

(** A buffer whose version field is 0 is decoded, not rejected. *)
Lemma parse_accepts_version_0 :
  Z.land (Z.shiftr (byte_val x00) 6) 0x03 = 0
  /\ parse [x00; x01; x00; x2a] =
     Ok {| version := 0; type := 0; token_length := 0; code := 1;
           message_id := 42; token := []; options := []; payload := [];
           source := None |}.
Proof. split; reflexivity. Qed.

Lemma read_extended_15 data pos : read_extended data pos 15 = Ok (15, pos).
Proof. reflexivity. Qed.

(** C6 (as the code has it). An option byte other than the marker 0xFF whose
    delta nibble or length nibble is 15 is not rejected: the loop takes the
    nibble as the plain value 15 (the option number advances by 15,
    respectively the value is the next 15 bytes, as far as the buffer goes),
    appends the option and goes on after it. *)
Theorem parse_nibble_15_accepted :
  forall (fuel : nat) (data : bytes) (pos n : Z) (m : CoAPMessage) (b : byte),
    0 <= pos -> getitem data pos = Ok b -> byte_val b <> 255 ->
    (delta_nibble b = 15 ->
     parse_loop (S fuel) data pos n m =
     ('(l, p2) <- read_extended data (pos + 1) (length_nibble b) ;;
      parse_loop fuel data (p2 + l) (n + 15)
        (append_option m (n + 15, slice data p2 (p2 + l)))))
    /\ (length_nibble b = 15 ->
        parse_loop (S fuel) data pos n m =
        ('(d, p1) <- read_extended data (pos + 1) (delta_nibble b) ;;
         parse_loop fuel data (p1 + 15) (n + d)
           (append_option m (n + d, slice data p1 (p1 + 15))))).
Proof.
  intros fuel data pos n m b Hpos Hb Hff.
  rewrite (@parse_loop_step fuel data pos n m b Hpos Hb Hff).
  split; intros H; rewrite H.
  - rewrite read_extended_15. reflexivity.
  - destruct (read_extended data (pos + 1) (delta_nibble b))
      as [[d p1]| |]; reflexivity.
Qed.

(** An option whose delta nibble is 15 and one whose length nibble is 15
    are both decoded. *)
Lemma parse_accepts_nibble_15 :
  delta_nibble xf0 = 15 /\ length_nibble x0f = 15
  /\ parse [x40; x01; x00; x2a; xf0] =
     Ok {| version := 1; type := 0; token_length := 0; code := 1;
           message_id := 42; token := []; options := [(15, [])];
           payload := []; source := None |}
  /\ parse [x40; x01; x00; x2a; x0f; x61; x62] =
     Ok {| version := 1; type := 0; token_length := 0; code := 1;
           message_id := 42; token := []; options := [(0, [x61; x62])];
           payload := []; source := None |}.
Proof. repeat split; reflexivity. Qed.

Lemma parse_nibble_15_accepted_witness :
  parse_loop 1 [x40; x01; x00; x2a; xf0] 4 0 CoAPMessage_init =
  Ok (append_option CoAPMessage_init (15, [])).
Proof.
  destruct (@parse_nibble_15_accepted 0 [x40; x01; x00; x2a; xf0] 4 0
              CoAPMessage_init xf0) as [Hd _].
  - lia.
  - reflexivity.
  - discriminate.
  - rewrite Hd by reflexivity. reflexivity.
Defined.

Lemma slice_past_end {A} (l : list A) lo hi :
  0 <= lo -> len l < hi -> slice l lo hi = slice_from l lo.
Proof.
  intros Hlo Hhi. pose proof (len_nonneg l) as Hl.
  rewrite slice_from_nonneg by assumption.
  destruct (Z.le_gt_cases lo hi) as [Hle|Hgt].
  - rewrite slice_nonneg by lia. apply firstn_all2.
    rewrite length_skipn. unfold len in *. lia.
  - unfold slice, clamp.
    destruct (lo <? 0) eqn:E1; [apply Z.ltb_lt in E1; lia|].
    destruct (hi <? 0) eqn:E2; [apply Z.ltb_lt in E2; lia|].
    rewrite !Z.min_r by lia. rewrite Z.sub_diag. simpl firstn.
    symmetry. apply skipn_all2. unfold len in *. lia.
Qed.

Lemma slice_from_length {A} (l : list A) lo :
  0 <= lo -> len (slice_from l lo) = Z.max 0 (len l - lo).
Proof.
  intros H. rewrite slice_from_nonneg by assumption. unfold len.
  rewrite length_skipn. lia.
Qed.

Lemma unpack_H_length s v : unpack_H s = Ok v -> len s = 2.
Proof.
  destruct s as [|hi [|lo [|? ?]]]; simpl; try discriminate. reflexivity.
Qed.

(** The extension bytes read are inside the buffer. *)
Lemma read_extended_in_range data pos nibble v p :
  0 <= pos <= len data -> read_extended data pos nibble = Ok (v, p) ->
  p <= len data.
Proof.
  intros Hpos. unfold read_extended.
  destruct (nibble =? 13).
  - destruct (getitem data pos) as [b| |] eqn:E; simpl; try discriminate.
    intros [= <- <-]. apply getitem_Ok_lt in E; lia.
  - destruct (nibble =? 14).
    + destruct (unpack_H (slice data pos (pos + 2))) as [w| |] eqn:E; simpl;
        try discriminate.
      intros [= <- <-]. apply unpack_H_length in E.
      rewrite slice_length in E by lia. lia.
    + intros [= <- <-]. lia.
Qed.

(** C7 (as the code has it). [parse] does not fail when fewer bytes remain
    than the token length or an option's value length declares: it takes the
    bytes that remain, fewer than declared, as the token (as the option's
    value), finds nothing more to parse and returns the message. *)
Theorem parse_short_token_and_value :
  (forall (b0 b1 b2 b3 : byte) (rest : bytes),
      len rest < Z.land (byte_val b0) 0x0F ->
      parse (b0 :: b1 :: b2 :: b3 :: rest) = Ok (header_of b0 b1 b2 b3 rest)
      /\ len (token (header_of b0 b1 b2 b3 rest))
         < token_length (header_of b0 b1 b2 b3 rest))
  /\ (forall (fuel : nat) (data : bytes) (pos n : Z) (m : CoAPMessage)
             (b : byte) (d p1 l p2 : Z),
        0 <= pos -> getitem data pos = Ok b -> byte_val b <> 255 ->
        read_extended data (pos + 1) (delta_nibble b) = Ok (d, p1) ->
        read_extended data p1 (length_nibble b) = Ok (l, p2) ->
        len data < p2 + l ->
        parse_loop (S fuel) data pos n m =
        Ok (append_option m (n + d, slice_from data p2))
        /\ len (slice_from data p2) < l).
Proof.
  split.
  - intros b0 b1 b2 b3 rest H. split.
    + apply parse_header_only. lia.
    + exact H.
  - intros fuel data pos n m b d p1 l p2 Hpos Hb Hff E1 E2 Hshort.
    rewrite (@parse_loop_step fuel data pos n m b Hpos Hb Hff).
    rewrite E1. cbn [bind]. rewrite E2. cbn [bind].
    pose proof (getitem_Ok_lt _ Hpos Hb) as Hlt.
    destruct (read_extended_mono data (pos + 1)
                (proj1 (land_15_range _)) E1) as [H1 _].
    destruct (read_extended_mono data p1
                (proj1 (land_15_range _)) E2) as [H2 Hl].
    apply read_extended_in_range in E1; [|lia].
    apply read_extended_in_range in E2; [|lia].
    rewrite parse_loop_end by lia.
    rewrite slice_past_end by lia. split; [reflexivity|].
    rewrite slice_from_length by lia. lia.
Qed.

(** A token of 1 byte where 4 are declared, and an option value of 2 bytes
    where 5 are declared, are both returned as they are. *)
Lemma parse_returns_short_token_and_value :
  parse [x44; x01; x00; x2a; xaa] =
  Ok {| version := 1; type := 0; token_length := 4; code := 1;
        message_id := 42; token := [xaa]; options := []; payload := [];
        source := None |}
  /\ parse [x40; x01; x00; x2a; xb5; x65; x6e] =
     Ok {| version := 1; type := 0; token_length := 0; code := 1;
           message_id := 42; token := [];
           options := [(11, [x65; x6e])]; payload := [];
           source := None |}.
Proof. split; reflexivity. Qed.

(** ** [serialize] and [parse] together *)

(** C1 (where the code departs from it). [serialize] keeps the low 4 bits
    of an option's delta and of its length and writes no extension bytes. A
    message with the single option number 300 is therefore written with the
    delta nibble 12 and read back with option number 12; one with the single
    option number 13 is written with the delta nibble 13, which [parse] takes
    as the announcement of an extension byte that is not there. *)
Theorem serialize_drops_extended_delta :
  let m300 :=
    {| version := 1; type := 0; token_length := 0; code := 1;
       message_id := 42; token := []; options := [(300, [x61])];
       payload := []; source := None |} in
  let m13 :=
    {| version := 1; type := 0; token_length := 0; code := 1;
       message_id := 42; token := []; options := [(13, [])];
       payload := []; source := None |} in
  serialize m300 = Ok [x40; x01; x00; x2a; xc1; x61]
  /\ (wire <- serialize m300 ;; parse wire) =
     Ok {| version := 1; type := 0; token_length := 0; code := 1;
           message_id := 42; token := []; options := [(12, [x61])];
           payload := []; source := None |}
  /\ serialize m13 = Ok [x40; x01; x00; x2a; xd0]
  /\ (wire <- serialize m13 ;; parse wire) = Raise IndexError.
Proof. repeat split; reflexivity. Qed.

(** C8 (where the code departs from it). [serialize] sorts the options as
    tuples, so options with the same number are written in the order of their
    values: the path segments "b", "a" are written as "a", "b". *)
Theorem serialize_reorders_equal_numbers :
  let m :=
    {| version := 1; type := 0; token_length := 0; code := 1;
       message_id := 42; token := [];
       options := [(11, [x62]); (11, [x61])];
       payload := []; source := None |} in
  sorted (options m) = [(11, [x61]); (11, [x62])]
  /\ serialize m = Ok [x40; x01; x00; x2a; xb1; x61; x01; x62]
  /\ (wire <- serialize m ;; parse wire) =
     Ok {| version := 1; type := 0; token_length := 0; code := 1;
           message_id := 42; token := [];
           options := [(11, [x61]); (11, [x62])];
           payload := []; source := None |}.
Proof. repeat split; reflexivity. Qed.

(** ** Decoded messages and the header that [serialize] builds *)

(** The loop leaves the header, the token and the source as they are. *)
Lemma parse_loop_header fuel :
  forall data pos n m m',
    parse_loop fuel data pos n m = Ok m' ->
    version m' = version m /\ type m' = type m
    /\ token_length m' = token_length m /\ code m' = code m
    /\ message_id m' = message_id m /\ token m' = token m
    /\ source m' = source m.
Proof.
  induction fuel as [|fuel IH]; intros data pos n m m'; simpl.
  - destruct (pos <? len data); [discriminate|].
    intros [= <-]. repeat split.
  - destruct (pos <? len data); [|intros [= <-]; repeat split].
    destruct (getitem data pos) as [b| |]; simpl; try discriminate.
    destruct (byte_val b =? 255); [intros [= <-]; repeat split|].
    destruct (read_extended data (pos + 1) _) as [[d p1]| |]; simpl;
      try discriminate.
    destruct (read_extended data p1 _) as [[l p2]| |]; simpl;
      try discriminate.
    intros H. apply IH in H. exact H.
Qed.

(** What every decoded message satisfies. *)
Lemma parse_Ok_fields data m :
  parse data = Ok m ->
  0 <= code m <= 255 /\ 0 <= message_id m <= 65535 /\ source m = None
  /\ len (token m) <= 15.
Proof.
  destruct data as [|b0 [|b1 [|b2 [|b3 rest]]]]; try discriminate.
  rewrite parse_unfold. intros H. apply parse_loop_header in H.
  destruct H as (_ & _ & _ & -> & -> & -> & ->).
  cbn [header_of code message_id source token].
  pose proof (byte_val_range b1). pose proof (byte_val_range b2).
  pose proof (byte_val_range b3).
  pose proof (land_15_range (byte_val b0)) as Hr.
  rewrite slice_length by lia. repeat split; lia.
Qed.

Lemma land_3 x : Z.land x 3 = x mod 4.
Proof. change 3 with (Z.ones 2). now rewrite Z.land_ones by lia. Qed.

Lemma land_3_range x : 0 <= Z.land x 3 <= 3.
Proof. rewrite land_3. pose proof (Z.mod_pos_bound x 4). lia. Qed.

(** The first byte that [serialize] builds always fits a byte. *)
Lemma header_byte_range v t tl :
  0 <= Z.lor (Z.lor (Z.shiftl (Z.land v 3) 6) (Z.shiftl (Z.land t 3) 4))
             (Z.land tl 15) <= 255.
Proof.
  pose proof (land_3_range v) as Hv. pose proof (land_3_range t) as Ht.
  pose proof (land_15_range tl) as Hl.
  set (a := Z.land v 3) in *. set (b := Z.land t 3) in *.
  set (c := Z.land tl 15) in *. clearbody a b c.
  assert (Ha : a = 0 \/ a = 1 \/ a = 2 \/ a = 3) by lia.
  assert (Hb : b = 0 \/ b = 1 \/ b = 2 \/ b = 3) by lia.
  assert (Hc : 0 <= Z.lor (Z.shiftl a 6) (Z.shiftl b 4) <= 240
               /\ Z.land (Z.lor (Z.shiftl a 6) (Z.shiftl b 4)) 15 = 0)
    by (destruct Ha as [->|[->|[->| ->]]], Hb as [->|[->|[->| ->]]];
        vm_compute; intuition discriminate).
  destruct Hc as [Hc Hd].
  set (h := Z.lor (Z.shiftl a 6) (Z.shiftl b 4)) in *. clearbody h.
  assert (Hdis : Z.land h c = 0).
  { apply Z.bits_inj'. intros i Hi. rewrite Z.land_spec, Z.bits_0.
    destruct (Z.lt_ge_cases i 4) as [Hlt|Hge].
    - assert (Hbit : Z.testbit (Z.land h 15) i = false)
        by (rewrite Hd; apply Z.bits_0).
      rewrite Z.land_spec in Hbit. change 15 with (Z.ones 4) in Hbit.
      rewrite Z.ones_spec_low in Hbit by lia.
      rewrite andb_true_r in Hbit. now rewrite Hbit.
    - rewrite (Z.bits_above_log2 c i); [apply andb_false_r|lia|].
      destruct (Z.eq_dec c 0) as [->|Hc0]; [simpl; lia|].
      assert (Z.log2 c < 4) by (apply Z.log2_lt_pow2; simpl; lia). lia. }
  pose proof (Z.add_lor_land h c) as Hadd. rewrite Hdis in Hadd. lia.
Qed.

Lemma pack_BBH_ok a b c :
  0 <= a <= 255 -> 0 <= b <= 255 -> 0 <= c <= 65535 ->
  pack_BBH a b c =
  Ok [byte_of a; byte_of b; byte_of (Z.shiftr c 8); byte_of c].
Proof.
  intros Ha Hb Hc. unfold pack_BBH.
  replace (0 <=? a) with true by (symmetry; apply Z.leb_le; lia).
  replace (a <=? 255) with true by (symmetry; apply Z.leb_le; lia).
  replace (0 <=? b) with true by (symmetry; apply Z.leb_le; lia).
  replace (b <=? 255) with true by (symmetry; apply Z.leb_le; lia).
  replace (0 <=? c) with true by (symmetry; apply Z.leb_le; lia).
  replace (c <=? 65535) with true by (symmetry; apply Z.leb_le; lia).
  reflexivity.
Qed.

(** A message without options whose code and message id fit their fields
    is always serialized. *)
Lemma serialize_no_options m :
  options m = [] -> 0 <= code m <= 255 -> 0 <= message_id m <= 65535 ->
  exists wire, serialize m = Ok wire.
Proof.
  intros Ho Hc Hm. unfold serialize.
  rewrite pack_BBH_ok by (assumption || apply header_byte_range).
  rewrite Ho. cbn [bind sorted fold_right serialize_options]. eauto.
Qed.

(** ** The messages that [serialize] and [parse] carry faithfully *)

Lemma byte_val_of_mod z : byte_val (byte_of z) = z mod 256.
Proof.
  pose proof (Z.mod_pos_bound z 256) as H.
  rewrite <- (byte_val_of (z := z mod 256)) by lia.
  unfold byte_of. now rewrite Z.mod_mod by lia.
Qed.

(** The option header that [serialize] builds always fits a byte, so
    [bytes([option_header])] never raises. *)
Lemma option_header_range d l :
  0 <= Z.lor (Z.shiftl (Z.land d 15) 4) (Z.land l 15) <= 255.
Proof.
  pose proof (land_15_range d) as Hd. pose proof (land_15_range l) as Hl.
  set (a := Z.land d 15) in *. set (b := Z.land l 15) in *. clearbody a b.
  assert (Ha : a = 0 \/ a = 1 \/ a = 2 \/ a = 3 \/ a = 4 \/ a = 5 \/ a = 6
               \/ a = 7 \/ a = 8 \/ a = 9 \/ a = 10 \/ a = 11 \/ a = 12
               \/ a = 13 \/ a = 14 \/ a = 15) by lia.
  assert (Hb : b = 0 \/ b = 1 \/ b = 2 \/ b = 3 \/ b = 4 \/ b = 5 \/ b = 6
               \/ b = 7 \/ b = 8 \/ b = 9 \/ b = 10 \/ b = 11 \/ b = 12
               \/ b = 13 \/ b = 14 \/ b = 15) by lia.
  repeat (destruct Ha as [->|Ha]); try subst a;
    repeat (destruct Hb as [->|Hb]); try subst b;
    vm_compute; split; discriminate.
Qed.

(** For a delta and a length below 13 the header byte holds both as they
    are, and it is not the payload marker. *)
Lemma option_header_small d l :
  0 <= d <= 12 -> 0 <= l <= 12 ->
  delta_nibble (byte_of (Z.lor (Z.shiftl (Z.land d 15) 4) (Z.land l 15))) = d
  /\ length_nibble
       (byte_of (Z.lor (Z.shiftl (Z.land d 15) 4) (Z.land l 15))) = l
  /\ byte_val
       (byte_of (Z.lor (Z.shiftl (Z.land d 15) 4) (Z.land l 15))) <> 255.
Proof.
  intros Hd Hl.
  assert (Ha : d = 0 \/ d = 1 \/ d = 2 \/ d = 3 \/ d = 4 \/ d = 5 \/ d = 6
               \/ d = 7 \/ d = 8 \/ d = 9 \/ d = 10 \/ d = 11 \/ d = 12)
    by lia.
  assert (Hb : l = 0 \/ l = 1 \/ l = 2 \/ l = 3 \/ l = 4 \/ l = 5 \/ l = 6
               \/ l = 7 \/ l = 8 \/ l = 9 \/ l = 10 \/ l = 11 \/ l = 12)
    by lia.
  clear Hd Hl.
  repeat (destruct Ha as [->|Ha]); try subst d;
    repeat (destruct Hb as [->|Hb]); try subst l;
    vm_compute; repeat split; discriminate.
Qed.

Lemma bytes_of_int_ok x : 0 <= x <= 255 -> bytes_of_int x = Ok [byte_of x].
Proof.
  intros H. unfold bytes_of_int.
  replace (0 <=? x) with true by (symmetry; apply Z.leb_le; lia).
  replace (x <? 256) with true by (symmetry; apply Z.ltb_lt; lia).
  reflexivity.
Qed.

(** The option loop of [serialize] appends to what was written before. *)
Lemma serialize_options_acc opts :
  forall cur data,
    serialize_options opts cur data =
    (r <- serialize_options opts cur [] ;; Ok (data ++ r)).
Proof.
  induction opts as [|[num value] opts IH]; intros cur data; simpl.
  - now rewrite app_nil_r.
  - rewrite bytes_of_int_ok by apply option_header_range. cbn [bind].
    rewrite IH. rewrite (IH num (_ ++ value)).
    destruct (serialize_options opts num []) as [r| |]; simpl;
      try reflexivity.
    now rewrite <- !app_assoc.
Qed.

(** [serialize] raises only when the code or the message id does not fit
    its header field. *)
Lemma serialize_options_ok opts :
  forall cur data, exists r, serialize_options opts cur data = Ok r.
Proof.
  induction opts as [|[num value] opts IH]; intros cur data; simpl.
  - eauto.
  - rewrite bytes_of_int_ok by apply option_header_range. cbn [bind].
    apply IH.
Qed.

Lemma serialize_ok m :
  0 <= code m <= 255 -> 0 <= message_id m <= 65535 ->
  exists wire, serialize m = Ok wire.
Proof.
  intros Hc Hm. unfold serialize.
  rewrite pack_BBH_ok by (assumption || apply header_byte_range).
  cbn [bind].
  match goal with
  | |- context [serialize_options ?o ?c ?d] =>
      destruct (serialize_options_ok o c d) as [r Hr]; rewrite Hr
  end.
  cbn [bind]. eauto.
Qed.

Lemma parse_loop_app fuel prefix :
  forall l pos n m,
    0 <= pos ->
    parse_loop fuel (prefix ++ l) (len prefix + pos) n m =
    parse_loop fuel l pos n m.
Proof.
  induction prefix as [|a prefix IH]; intros l pos n m Hpos.
  - reflexivity.
  - pose proof (len_nonneg prefix). rewrite len_cons. simpl app.
    rewrite parse_loop_cons by lia.
    replace (len prefix + 1 + pos - 1) with (len prefix + pos) by lia.
    now apply IH.
Qed.

(** Any two amounts of fuel that cover the bytes left give the same
    result. *)
Lemma parse_loop_fuel_irrelevant fuel :
  forall fuel' data pos n m,
    0 <= pos ->
    len data - pos <= Z.of_nat fuel -> len data - pos <= Z.of_nat fuel' ->
    parse_loop fuel data pos n m = parse_loop fuel' data pos n m.
Proof.
  induction fuel as [|fuel IH]; intros fuel' data pos n m Hpos H H'.
  - rewrite !parse_loop_end by lia. reflexivity.
  - destruct (Z.le_gt_cases (len data) pos) as [Hend|Hlt].
    { rewrite !parse_loop_end by lia. reflexivity. }
    destruct fuel' as [|fuel']; [lia|].
    destruct (@getitem_in_range _ data pos) as [b Hb]; [lia|].
    destruct (Z.eq_dec (byte_val b) 255) as [Hff|Hff].
    { now rewrite !(@parse_loop_marker _ data pos n m b Hpos Hb Hff). }
    rewrite !(@parse_loop_step _ data pos n m b Hpos Hb Hff).
    destruct (read_extended data (pos + 1) (delta_nibble b))
      as [[d p1]| |] eqn:E1; simpl; try reflexivity.
    destruct (read_extended data p1 (length_nibble b))
      as [[l p2]| |] eqn:E2; simpl; try reflexivity.
    apply read_extended_mono in E1; [|apply land_15_range].
    apply read_extended_mono in E2; [|apply land_15_range].
    apply IH; lia.
Qed.

Lemma read_extended_small data pos nibble :
  0 <= nibble <= 12 -> read_extended data pos nibble = Ok (nibble, pos).
Proof.
  intros H. unfold read_extended.
  destruct (nibble =? 13) eqn:E1; [apply Z.eqb_eq in E1; lia|].
  destruct (nibble =? 14) eqn:E2; [apply Z.eqb_eq in E2; lia|].
  reflexivity.
Qed.

Lemma slice_app_prefix {A} (l l' : list A) : slice (l ++ l') 0 (len l) = l.
Proof.
  pose proof (len_nonneg l). rewrite slice_nonneg by lia.
  simpl skipn. rewrite Z.sub_0_r. unfold len. rewrite Nat2Z.id.
  rewrite firstn_app, firstn_all, Nat.sub_diag. simpl. apply app_nil_r.
Qed.

Lemma fold_append_options opts :
  forall m,
    fold_left append_option opts m =
    {| version := version m; type := type m; token_length := token_length m;
       code := code m; message_id := message_id m; token := token m;
       options := options m ++ opts; payload := payload m;
       source := source m |}.
Proof.
  induction opts as [|o opts IH]; intros m; simpl.
  - rewrite app_nil_r. now destruct m.
  - rewrite IH. simpl. now rewrite <- app_assoc.
Qed.

(** [parse] reads back the options that [serialize] wrote, whatever
    follows them in the buffer. *)
Lemma parse_loop_options opts :
  forall cur enc tail fuel m,
    small_options cur opts ->
    serialize_options opts cur [] = Ok enc ->
    len (enc ++ tail) <= Z.of_nat fuel ->
    parse_loop fuel (enc ++ tail) 0 cur m =
    parse_loop fuel tail 0 (last_number cur opts)
      (fold_left append_option opts m).
Proof.
  induction opts as [|[num value] opts IH];
    intros cur enc tail fuel m Hsmall Henc Hfuel.
  - simpl in Henc. injection Henc as <-. reflexivity.
  - destruct Hsmall as (Hd & Hl & Hrest).
    pose proof (len_nonneg value) as Hv.
    cbn [serialize_options] in Henc.
    rewrite bytes_of_int_ok in Henc by apply option_header_range.
    cbn [bind] in Henc. rewrite serialize_options_acc in Henc.
    destruct (serialize_options opts num []) as [enc'| |] eqn:Eenc;
      try discriminate.
    cbn [bind] in Henc. injection Henc as <-.
    destruct (@option_header_small (num - cur) (len value))
      as (Hdn & Hln & Hff); [lia|lia|].
    set (hb := byte_of _) in *.
    simpl app in *. rewrite <- app_assoc in *.
    rewrite len_cons, !len_app in Hfuel.
    pose proof (len_nonneg enc'). pose proof (len_nonneg tail).
    destruct fuel as [|fuel]; [lia|].
    rewrite (@parse_loop_step fuel _ 0 cur m hb);
      [|lia|reflexivity|assumption].
    rewrite Hdn, Hln.
    rewrite read_extended_small by lia. cbn [bind].
    rewrite read_extended_small by lia. cbn [bind].
    rewrite slice_cons by lia.
    replace (0 + 1 - 1) with 0 by lia.
    replace (0 + 1 + len value - 1) with (len value) by lia.
    rewrite slice_app_prefix.
    replace (cur + (num - cur)) with num by lia.
    change (hb :: value ++ enc' ++ tail)
      with ([hb] ++ value ++ enc' ++ tail).
    rewrite (app_assoc [hb] value).
    replace (0 + 1 + len value) with (len ([hb] ++ value) + 0)
      by (rewrite len_app; unfold len; simpl; lia).
    rewrite parse_loop_app by lia.
    rewrite (IH num enc' tail fuel) by (assumption || rewrite len_app; lia).
    cbn [last_number fold_left].
    apply parse_loop_fuel_irrelevant; lia.
Qed.

Lemma header_byte_fields v t tl :
  0 <= v <= 3 -> 0 <= t <= 3 -> 0 <= tl <= 15 ->
  Z.land
    (Z.shiftr
       (byte_val
          (byte_of
             (Z.lor (Z.lor (Z.shiftl (Z.land v 3) 6) (Z.shiftl (Z.land t 3) 4))
                    (Z.land tl 15)))) 6) 3 = v
  /\ Z.land
       (Z.shiftr
          (byte_val
             (byte_of
                (Z.lor
                   (Z.lor (Z.shiftl (Z.land v 3) 6) (Z.shiftl (Z.land t 3) 4))
                   (Z.land tl 15)))) 4) 3 = t
  /\ Z.land
       (byte_val
          (byte_of
             (Z.lor (Z.lor (Z.shiftl (Z.land v 3) 6) (Z.shiftl (Z.land t 3) 4))
                    (Z.land tl 15)))) 15 = tl.
Proof.
  intros Hv Ht Htl.
  assert (Ha : v = 0 \/ v = 1 \/ v = 2 \/ v = 3) by lia.
  assert (Hb : t = 0 \/ t = 1 \/ t = 2 \/ t = 3) by lia.
  assert (Hc : tl = 0 \/ tl = 1 \/ tl = 2 \/ tl = 3 \/ tl = 4 \/ tl = 5
               \/ tl = 6 \/ tl = 7 \/ tl = 8 \/ tl = 9 \/ tl = 10 \/ tl = 11
               \/ tl = 12 \/ tl = 13 \/ tl = 14 \/ tl = 15) by lia.
  clear Hv Ht Htl.
  destruct Ha as [->|[->|[->| ->]]], Hb as [->|[->|[->| ->]]];
    repeat (destruct Hc as [->|Hc]); try subst tl;
    vm_compute; repeat split.
Qed.

Lemma message_id_bytes mid :
  0 <= mid <= 65535 ->
  byte_val (byte_of (Z.shiftr mid 8)) * 256 + byte_val (byte_of mid) = mid.
Proof.
  intros H. rewrite !byte_val_of_mod, Z.shiftr_div_pow2 by lia.
  change (2 ^ 8) with 256. Z.to_euclidean_division_equations. lia.
Qed.

(** On its domain the codec round-trips: what [serialize] writes, [parse]
    reads back as the same message. *)
Theorem parse_serialize_small :
  forall m : CoAPMessage,
    carried_faithfully m ->
    exists wire, serialize m = Ok wire /\ parse wire = Ok m.
Proof.
  intros m (Hv & Ht & Htl & Htok & Hc & Hmid & Hsrc & Hsorted & Hsmall).
  pose proof (len_nonneg (token m)) as Htok0.
  destruct (@header_byte_fields (version m) (type m) (token_length m))
    as (Fv & Ft & Fl); [lia|lia|lia|].
  pose proof (message_id_bytes Hmid) as Fmid.
  pose proof (byte_val_of (z := code m)) as Fc.
  destruct (serialize_options_ok (options m) 0 []) as [enc Henc].
  unfold serialize.
  rewrite pack_BBH_ok by (assumption || apply header_byte_range).
  set (b0 := byte_of (Z.lor _ _)) in *.
  set (b1 := byte_of (code m)) in *.
  set (b2 := byte_of (Z.shiftr (message_id m) 8)) in *.
  set (b3 := byte_of (message_id m)) in *.
  cbn [bind]. rewrite Hsorted, serialize_options_acc, Henc. cbn [bind].
  set (tail := match payload m with [] => [] | _ :: _ => xff :: payload m end).
  eexists. split; [reflexivity|].
  match goal with
  | |- parse ?w = _ =>
      assert (Hwire : w = b0 :: b1 :: b2 :: b3 :: token m ++ enc ++ tail)
  end.
  { assert (Hhdr : (if 0 <? token_length m
                    then [b0; b1; b2; b3] ++ token m else [b0; b1; b2; b3])
                   = [b0; b1; b2; b3] ++ token m).
    { destruct (0 <? token_length m) eqn:E; [reflexivity|].
      apply Z.ltb_ge in E.
      assert (Hnil : len (token m) = 0 -> token m = [])
        by (unfold len; destruct (token m); [reflexivity|simpl; lia]).
      rewrite Hnil by lia. reflexivity. }
    rewrite Hhdr. unfold tail.
    destruct (payload m); simpl; rewrite <- ?app_assoc;
      [now rewrite app_nil_r|reflexivity]. }
  rewrite Hwire.
  rewrite parse_unfold. rewrite Fl, Htl.
  rewrite slice_token by lia. rewrite slice_app_prefix.
  change (b0 :: b1 :: b2 :: b3 :: token m ++ enc ++ tail)
    with ([b0; b1; b2; b3] ++ token m ++ enc ++ tail).
  rewrite (app_assoc [b0; b1; b2; b3]).
  replace (4 + len (token m)) with (len ([b0; b1; b2; b3] ++ token m) + 0)
    by (rewrite len_app; unfold len; simpl; lia).
  rewrite parse_loop_app by lia.
  rewrite (@parse_loop_options (options m) 0 enc tail); try assumption.
  2:{ unfold len. rewrite !length_app. simpl List.length. lia. }
  rewrite fold_append_options.
  unfold header_of. cbn [version type token_length code message_id token
                         options payload source app].
  rewrite Fv, Ft, Fl, Fmid, Fc by lia.
  unfold tail. destruct m as [v t tl c mid tok opts pl src].
  cbn [payload] in *. cbn [source] in Hsrc. subst src.
  cbn [token token_length] in *. subst tl.
  destruct pl as [|p pl].
  - rewrite parse_loop_end by (unfold len; simpl; lia). reflexivity.
  - cbn [List.length].
    erewrite parse_loop_marker; [|lia|reflexivity|reflexivity].
    rewrite slice_from_nonneg by lia. reflexivity.
Qed.

Lemma parse_serialize_small_example :
  exists wire,
    serialize
      {| version := 1; type := 0; token_length := 2; code := 1;
         message_id := 4660; token := [xab; xcd];
         options := [(11, [x73; x74; x6f; x72; x65]);
                     (11, [x78]); (12, [x00])];
         payload := [x68; x69]; source := None |} = Ok wire
    /\ parse wire =
       Ok {| version := 1; type := 0; token_length := 2; code := 1;
             message_id := 4660; token := [xab; xcd];
             options := [(11, [x73; x74; x6f; x72; x65]);
                         (11, [x78]); (12, [x00])];
             payload := [x68; x69]; source := None |}.
Proof.
  apply parse_serialize_small.
  unfold carried_faithfully. cbn [small_options options]. unfold len.
  simpl. repeat split; try lia; reflexivity.
Qed.

(** ** The order in which [serialize] writes the options *)

Lemma tuple_lt_true a b : tuple_lt a b = true -> fst a <= fst b.
Proof.
  unfold tuple_lt. destruct (fst a <? fst b) eqn:E1.
  - apply Z.ltb_lt in E1. lia.
  - destruct (fst b <? fst a) eqn:E2; [discriminate|].
    apply Z.ltb_ge in E1. lia.
Qed.

Lemma tuple_lt_false a b : tuple_lt a b = false -> fst b <= fst a.
Proof.
  unfold tuple_lt. destruct (fst a <? fst b) eqn:E1; [discriminate|].
  apply Z.ltb_ge in E1. lia.
Qed.

Lemma insert_sorted_Forall (P : Z * bytes -> Prop) x l :
  P x -> Forall P l -> Forall P (insert_sorted x l).
Proof.
  intros Hx Hl. induction Hl as [|y l Hy Hl IH]; simpl.
  - auto.
  - destruct (tuple_lt y x); auto.
Qed.

Lemma insert_sorted_ascending x l :
  StronglySorted number_le l -> StronglySorted number_le (insert_sorted x l).
Proof.
  intros Hl. induction Hl as [|y l Hs IH Hy]; simpl.
  - repeat constructor.
  - destruct (tuple_lt y x) eqn:E.
    + constructor; [assumption|].
      apply insert_sorted_Forall; [|assumption].
      now apply tuple_lt_true.
    + apply tuple_lt_false in E.
      constructor; [now constructor|].
      constructor; [assumption|].
      eapply Forall_impl; [|exact Hy].
      unfold number_le in *. intros z Hz. lia.
Qed.

(** [sorted] puts the options in ascending order of their numbers, and
    neither drops nor adds any. *)
Lemma sorted_ascending l : StronglySorted number_le (sorted l).
Proof.
  induction l as [|x l IH]; simpl; [constructor|].
  now apply insert_sorted_ascending.
Qed.

Lemma insert_sorted_permutation x l : Permutation (x :: l) (insert_sorted x l).
Proof.
  induction l as [|y l IH]; simpl; [reflexivity|].
  destruct (tuple_lt y x); [|reflexivity].
  rewrite perm_swap. now constructor.
Qed.

Lemma sorted_permutation l : Permutation l (sorted l).
Proof.
  induction l as [|x l IH]; simpl; [constructor|].
  rewrite <- insert_sorted_permutation. now constructor.
Qed.

(** ** The request handlers *)

(** [send_response] on a request that came from [addr]: one datagram goes
    out to [addr], the serialized response. *)
Lemma send_response_ok message c s p addr srv :
  0 <= c <= 255 -> 0 <= message_id message <= 65535 ->
  len (token message) <= 15 ->
  source message = Some addr -> encode_utf8 s = Ok p ->
  exists response wire,
    create_response message c (Str s) = Ok response
    /\ code response = c /\ payload response = p
    /\ serialize response = Ok wire
    /\ parse wire = Ok response
    /\ send_response message c (Str s) srv =
       (Ok tt, {| store_stats := store_stats srv;
                  sent := sent srv ++ [(wire, addr)];
                  console := console srv |}).
Proof.
  intros Hc Hm Htok Hsrc Hp.
  pose proof (@create_response_value message c (Str s) p Hp) as Hresp.
  set (response := {| version := 1; type := CoAPType.ACK;
                      token_length := len (token message); code := c;
                      message_id := message_id message;
                      token := token message; options := [];
                      payload := p; source := None |}) in *.
  destruct (@parse_serialize_small response) as (wire & Hwire & Hback).
  { unfold carried_faithfully, response, CoAPType.ACK.
    cbn [version type token_length code message_id token options payload
         source small_options sorted fold_right].
    pose proof (len_nonneg (token message)).
    repeat split; try lia; reflexivity. }
  exists response, wire. repeat split; try assumption.
  unfold send_response, mbind, lift. rewrite Hresp, Hwire, Hsrc.
  reflexivity.
Qed.

(** The four calls of [send_response] in the handlers, on a server state
    [srv1] reached from [srv]. *)
Ltac respond message c text addr srv1 :=
  let response := fresh "response" in
  let wire := fresh "wire" in
  destruct (@send_response_ok message c (lit text)
              (list_byte_of_string text) addr srv1)
    as (response & wire & ? & ? & ? & ? & ? & Hsend);
  [vm_compute; split; discriminate|assumption|assumption|assumption
  |reflexivity|];
  exists response, wire; rewrite Hsend; repeat split; assumption.



(** * Further properties of the code *)

(** ** The ledger's accounts *)

Lemma ledger_step_max op s :
  max_capacity (snd (ledger_step op s)) = max_capacity s.
Proof.
  destruct op; simpl; unfold add_customer, remove_customer.
  - destruct (customers_in_store s <? max_capacity s); reflexivity.
  - destruct (0 <? customers_in_store s); reflexivity.
Qed.

Lemma ledger_run_accounts ops :
  forall s,
    customers_in_store (ledger_run ops s) =
    customers_in_store s + accepted TryEnter ops s - accepted TryLeave ops s
    /\ total_entrants (ledger_run ops s) =
       total_entrants s + accepted TryEnter ops s
    /\ max_capacity (ledger_run ops s) = max_capacity s.
Proof.
  induction ops as [|op ops IH]; intros s.
  - simpl. repeat split; lia.
  - cbn [ledger_run accepted].
    destruct (IH (snd (ledger_step op s))) as (Hc & Ht & Hm).
    rewrite Hc, Ht, Hm, ledger_step_max.
    destruct op; cbn [ledger_step]; unfold add_customer, remove_customer.
    + destruct (customers_in_store s <? max_capacity s);
        cbn [fst snd customers_in_store total_entrants max_capacity];
        repeat split; lia.
    + destruct (0 <? customers_in_store s);
        cbn [fst snd customers_in_store total_entrants max_capacity];
        repeat split; lia.
Qed.

(** X1. Along any run of the ledger, from any state, the number of customers
    in the store is the initial number plus the entries that were accepted
    minus the exits that were accepted, the total of entrants is the initial
    total plus the entries accepted, and the capacity never changes. *)
Theorem ledger_accounting :
  forall (ops : list ledger_op) (s : StoreStats),
    customers_in_store (ledger_run ops s) =
    customers_in_store s + accepted TryEnter ops s - accepted TryLeave ops s
    /\ total_entrants (ledger_run ops s) =
       total_entrants s + accepted TryEnter ops s
    /\ max_capacity (ledger_run ops s) = max_capacity s.
Proof. intros ops s. apply ledger_run_accounts. Qed.

Lemma accepted_nonneg op ops : forall s, 0 <= accepted op ops s.
Proof.
  induction ops as [|o ops IH]; intros s; cbn [accepted]; [lia|].
  specialize (IH (snd (ledger_step o s))).
  destruct op, o; try lia; destruct (fst (ledger_step _ s)); lia.
Qed.

(** X2. In every state the server's ledger can reach, what [display] prints
    is consistent: the remaining entries are 10 minus the customers in the
    store and lie between 0 and 10, and the total of entrants is at least the
    number of customers in the store. *)
Theorem display_consistent :
  forall ops : list ledger_op,
    let s := ledger_run ops StoreStats_init in
    let '(total, inside, remaining) := display s in
    total = total_entrants s /\ inside = customers_in_store s
    /\ inside + remaining = 10 /\ 0 <= remaining <= 10
    /\ inside <= total.
Proof.
  intros ops. cbv zeta. unfold display.
  destruct (ledger_run_accounts ops StoreStats_init) as (Hc & Ht & Hm).
  pose proof (@ledger_run_ok ops StoreStats_init) as Hok.
  unfold ledger_ok in Hok. cbn in Hok, Hc, Ht, Hm.
  pose proof (accepted_nonneg TryLeave ops StoreStats_init).
  rewrite Hm in *. repeat split; lia.
Qed.

Lemma ledger_run_enters k :
  forall s,
    ledger_ok s ->
    customers_in_store (ledger_run (repeat TryEnter k) s) =
    Z.min (customers_in_store s + Z.of_nat k) (max_capacity s)
    /\ total_entrants (ledger_run (repeat TryEnter k) s) =
       total_entrants s
       + Z.min (Z.of_nat k) (max_capacity s - customers_in_store s).
Proof.
  induction k as [|k IH]; intros s Hs.
  - unfold ledger_ok in Hs. simpl. lia.
  - cbn [repeat ledger_run ledger_step].
    destruct (IH (snd (add_customer s)) (add_customer_ok Hs)) as [Hc Ht].
    rewrite Hc, Ht. unfold ledger_ok in Hs. unfold add_customer.
    destruct (customers_in_store s <? max_capacity s) eqn:E;
      cbn [snd customers_in_store total_entrants max_capacity].
    + apply Z.ltb_lt in E. lia.
    + apply Z.ltb_ge in E. lia.
Qed.

Lemma ledger_run_leaves k :
  forall s,
    ledger_ok s ->
    customers_in_store (ledger_run (repeat TryLeave k) s) =
    Z.max (customers_in_store s - Z.of_nat k) 0
    /\ total_entrants (ledger_run (repeat TryLeave k) s) = total_entrants s.
Proof.
  induction k as [|k IH]; intros s Hs.
  - unfold ledger_ok in Hs. simpl. lia.
  - cbn [repeat ledger_run ledger_step].
    destruct (IH (snd (remove_customer s)) (remove_customer_ok Hs))
      as [Hc Ht].
    rewrite Hc, Ht. unfold ledger_ok in Hs. unfold remove_customer.
    destruct (0 <? customers_in_store s) eqn:E;
      cbn [snd customers_in_store total_entrants max_capacity].
    + apply Z.ltb_lt in E. lia.
    + apply Z.ltb_ge in E. lia.
Qed.

(** X3. From a ledger state within its bounds, [k] calls of [add_customer]
    in a row fill the store up to its capacity and no further: the store
    then holds the smaller of the capacity and the initial number plus [k],
    and exactly the accepted entries are added to the total. [k] calls of
    [remove_customer] in a row empty it down to 0 and no further, and leave
    the total alone. *)
Theorem ledger_saturates :
  forall (k : nat) (s : StoreStats),
    0 <= customers_in_store s <= max_capacity s ->
    (customers_in_store (ledger_run (repeat TryEnter k) s) =
     Z.min (customers_in_store s + Z.of_nat k) (max_capacity s)
     /\ total_entrants (ledger_run (repeat TryEnter k) s) =
        total_entrants s
        + Z.min (Z.of_nat k) (max_capacity s - customers_in_store s))
    /\ (customers_in_store (ledger_run (repeat TryLeave k) s) =
        Z.max (customers_in_store s - Z.of_nat k) 0
        /\ total_entrants (ledger_run (repeat TryLeave k) s) =
           total_entrants s).
Proof.
  intros k s Hs. split.
  - now apply ledger_run_enters.
  - now apply ledger_run_leaves.
Qed.

Lemma ledger_saturates_witness :
  customers_in_store (ledger_run (repeat TryEnter 11) StoreStats_init) = 10
  /\ total_entrants (ledger_run (repeat TryEnter 11) StoreStats_init) = 10.
Proof.
  destruct (@ledger_saturates 11 StoreStats_init) as [[Hc Ht] _].
  - simpl. lia.
  - split; [exact Hc|exact Ht].
Defined.

(** ** What [parse] returns *)

Lemma read_extended_raises data pos nibble e :
  read_extended data pos nibble = Raise e -> e = IndexError \/ e = StructError.
Proof.
  unfold read_extended. destruct (nibble =? 13).
  - unfold getitem.
    destruct (_ && _); [destruct (nth_error _ _)|]; simpl;
      intros [= <-]; auto.
  - destruct (nibble =? 14); [|discriminate].
    unfold unpack_H.
    destruct (slice data pos (pos + 2)) as [|? [|? [|? ?]]]; simpl;
      intros [= <-]; auto.
Qed.

Lemma parse_loop_raises fuel :
  forall data pos n m e,
    0 <= pos -> parse_loop fuel data pos n m = Raise e ->
    e = IndexError \/ e = StructError.
Proof.
  induction fuel as [|fuel IH]; intros data pos n m e Hpos.
  - simpl. destruct (pos <? len data); discriminate.
  - destruct (Z.le_gt_cases (len data) pos) as [Hend|Hlt].
    { rewrite parse_loop_end by lia. discriminate. }
    destruct (@getitem_in_range _ data pos) as [b Hb]; [lia|].
    destruct (Z.eq_dec (byte_val b) 255) as [Hff|Hff].
    { rewrite (@parse_loop_marker fuel data pos n m b Hpos Hb Hff).
      discriminate. }
    rewrite (@parse_loop_step fuel data pos n m b Hpos Hb Hff).
    destruct (read_extended data (pos + 1) (delta_nibble b))
      as [[d p1]| |] eqn:E1; cbn [bind]; try discriminate.
    2:{ intros [= <-]. eapply read_extended_raises, E1. }
    destruct (read_extended data p1 (length_nibble b))
      as [[l p2]| |] eqn:E2; cbn [bind]; try discriminate.
    2:{ intros [= <-]. eapply read_extended_raises, E2. }
    apply read_extended_mono in E1; [|apply land_15_range].
    apply read_extended_mono in E2; [|apply land_15_range].
    apply IH. lia.
Qed.

(** X4. [parse] comes to an end on every buffer, and in one of four ways: on
    a buffer shorter than 4 bytes it raises the [ValueError] "Message too
    short"; on any other buffer it returns a message, or raises [IndexError]
    or [struct.error] (from an option that announces extension bytes the
    buffer does not have). *)
Theorem parse_outcomes :
  forall data : bytes,
    (len data < 4 /\ parse data = Raise (ValueError "Message too short"))
    \/ (4 <= len data
        /\ ((exists m, parse data = Ok m)
            \/ parse data = Raise IndexError
            \/ parse data = Raise StructError)).
Proof.
  intros data.
  destruct (Z.lt_ge_cases (len data) 4) as [Hshort|Hlong].
  - left. split; [assumption|]. unfold parse.
    apply Z.ltb_lt in Hshort. now rewrite Hshort.
  - right. split; [assumption|].
    pose proof (parse_no_fuel data) as Hfuel.
    destruct data as [|b0 [|b1 [|b2 [|b3 rest]]]];
      try (unfold len in Hlong; simpl in Hlong; lia).
    rewrite parse_unfold in *.
    pose proof (land_15_range (byte_val b0)) as Hr.
    destruct (parse_loop _ _ _ _ _) as [m|e|] eqn:E.
    + left. eauto.
    + right. apply parse_loop_raises in E; [|lia].
      destruct E as [-> | ->]; auto.
    + congruence.
Qed.

(** X5. In every message that [parse] returns the header fields are within
    their bits (version and type 0..3, token length 0..15, code 0..255,
    message id 0..65535), the token is the slice of the buffer that starts at
    byte 4 and is as long as the token length says or as the buffer allows,
    and the source is not set. *)
Theorem parse_fields :
  forall (data : bytes) (m : CoAPMessage),
    parse data = Ok m ->
    0 <= version m <= 3 /\ 0 <= type m <= 3 /\ 0 <= token_length m <= 15
    /\ 0 <= code m <= 255 /\ 0 <= message_id m <= 65535
    /\ token m = slice data 4 (4 + token_length m)
    /\ len (token m) = Z.min (token_length m) (len data - 4)
    /\ source m = None.
Proof.
  intros data m.
  destruct data as [|b0 [|b1 [|b2 [|b3 rest]]]]; try discriminate.
  rewrite parse_unfold. intros H. apply parse_loop_header in H.
  destruct H as (-> & -> & -> & -> & -> & -> & ->).
  cbn [header_of version type token_length code message_id source token].
  pose proof (byte_val_range b1). pose proof (byte_val_range b2).
  pose proof (byte_val_range b3).
  pose proof (land_15_range (byte_val b0)) as Hr.
  pose proof (land_3_range (Z.shiftr (byte_val b0) 6)).
  pose proof (land_3_range (Z.shiftr (byte_val b0) 4)).
  pose proof (len_nonneg rest).
  rewrite slice_length by lia. rewrite !len_cons.
  repeat split; try lia; reflexivity.
Qed.

Lemma parse_fields_witness :
  token_length
    {| version := 1; type := 0; token_length := 2; code := 1;
       message_id := 4660; token := [xab; xcd]; options := [];
       payload := []; source := None |} = 2
  /\ len [xab; xcd] = Z.min 2 (len [x42; x01; x12; x34; xab; xcd] - 4).
Proof.
  destruct (@parse_fields [x42; x01; x12; x34; xab; xcd]
              {| version := 1; type := 0; token_length := 2; code := 1;
                 message_id := 4660; token := [xab; xcd]; options := [];
                 payload := []; source := None |})
    as (_ & _ & _ & _ & _ & _ & Hlen & _); [reflexivity|].
  split; [reflexivity|exact Hlen].
Defined.

Lemma StronglySorted_snoc {A} (R : A -> A -> Prop) l x :
  StronglySorted R l -> Forall (fun y => R y x) l ->
  StronglySorted R (l ++ [x]).
Proof.
  intros Hs. induction Hs as [|a l Hs IH Ha]; intros Hx; simpl.
  - repeat constructor.
  - inversion Hx as [|? ? Hax Hlx]; subst.
    constructor; [now apply IH|].
    apply Forall_app. split; [assumption|]. now constructor.
Qed.

Lemma parse_loop_ascending fuel :
  forall data pos n m m',
    0 <= pos -> 0 <= n ->
    StronglySorted number_le (options m) ->
    Forall (fun o => 0 <= fst o <= n) (options m) ->
    parse_loop fuel data pos n m = Ok m' ->
    StronglySorted number_le (options m')
    /\ Forall (fun o => 0 <= fst o) (options m').
Proof.
  induction fuel as [|fuel IH]; intros data pos n m m' Hpos Hn Hs Hb.
  - simpl. destruct (pos <? len data); [discriminate|].
    intros [= <-]. split; [assumption|].
    eapply Forall_impl; [|exact Hb]. simpl. intros; lia.
  - destruct (Z.le_gt_cases (len data) pos) as [Hend|Hlt].
    { rewrite parse_loop_end by lia. intros [= <-]. split; [assumption|].
      eapply Forall_impl; [|exact Hb]. simpl. intros; lia. }
    destruct (@getitem_in_range _ data pos) as [b Hgb]; [lia|].
    destruct (Z.eq_dec (byte_val b) 255) as [Hff|Hff].
    { rewrite (@parse_loop_marker fuel data pos n m b Hpos Hgb Hff).
      intros [= <-]. split; [assumption|].
      eapply Forall_impl; [|exact Hb]. simpl. intros; lia. }
    rewrite (@parse_loop_step fuel data pos n m b Hpos Hgb Hff).
    destruct (read_extended data (pos + 1) (delta_nibble b))
      as [[d p1]| |] eqn:E1; cbn [bind]; try discriminate.
    destruct (read_extended data p1 (length_nibble b))
      as [[l p2]| |] eqn:E2; cbn [bind]; try discriminate.
    apply read_extended_mono in E1; [|apply land_15_range].
    apply read_extended_mono in E2; [|apply land_15_range].
    apply IH; try lia; cbn [append_option options].
    + apply StronglySorted_snoc; [assumption|].
      eapply Forall_impl; [|exact Hb].
      unfold number_le. simpl. intros; lia.
    + apply Forall_app. split.
      * eapply Forall_impl; [|exact Hb]. simpl. intros; lia.
      * constructor; [simpl; lia|constructor].
Qed.

(** X6. The options of every message that [parse] returns carry numbers
    that are not negative and never decrease along the list: each is the
    number before it plus a delta that is not negative. *)
Theorem parse_options_ascending :
  forall (data : bytes) (m : CoAPMessage),
    parse data = Ok m ->
    StronglySorted number_le (options m)
    /\ Forall (fun o => 0 <= fst o) (options m).
Proof.
  intros data m.
  destruct data as [|b0 [|b1 [|b2 [|b3 rest]]]]; try discriminate.
  rewrite parse_unfold. pose proof (land_15_range (byte_val b0)) as Hr.
  apply parse_loop_ascending; try lia; constructor.
Qed.

Lemma parse_options_ascending_witness :
  StronglySorted number_le [(11, [x61]); (11, [x62]); (26, [])]
  /\ Forall (fun o : Z * bytes => 0 <= fst o)
       [(11, [x61]); (11, [x62]); (26, [])].
Proof.
  apply (@parse_options_ascending
           [x40; x01; x00; x2a; xb1; x61; x01; x62; xd0; x02]
           {| version := 1; type := 0; token_length := 0; code := 1;
              message_id := 42; token := [];
              options := [(11, [x61]); (11, [x62]); (26, [])];
              payload := []; source := None |}).
  reflexivity.
Defined.

Lemma options_size_app l l' :
  options_size (l ++ l') = options_size l + options_size l'.
Proof. induction l as [|o l IH]; simpl; [reflexivity|]. rewrite IH. lia. Qed.

Lemma parse_loop_size fuel :
  forall data pos n m m',
    0 <= pos -> payload m = [] ->
    parse_loop fuel data pos n m = Ok m' ->
    options_size (options m') + len (payload m')
    <= options_size (options m) + (len data - Z.min pos (len data)).
Proof.
  induction fuel as [|fuel IH]; intros data pos n m m' Hpos Hp.
  - simpl. destruct (pos <? len data); [discriminate|].
    intros [= <-]. rewrite Hp. unfold len at 1. simpl. lia.
  - destruct (Z.le_gt_cases (len data) pos) as [Hend|Hlt].
    { rewrite parse_loop_end by lia. intros [= <-]. rewrite Hp.
      unfold len at 1. simpl. lia. }
    destruct (@getitem_in_range _ data pos) as [b Hgb]; [lia|].
    destruct (Z.eq_dec (byte_val b) 255) as [Hff|Hff].
    { rewrite (@parse_loop_marker fuel data pos n m b Hpos Hgb Hff).
      intros [= <-]. cbn [set_payload options payload].
      rewrite slice_from_length by lia. lia. }
    rewrite (@parse_loop_step fuel data pos n m b Hpos Hgb Hff).
    destruct (read_extended data (pos + 1) (delta_nibble b))
      as [[d p1]| |] eqn:E1; cbn [bind]; try discriminate.
    destruct (read_extended data p1 (length_nibble b))
      as [[l p2]| |] eqn:E2; cbn [bind]; try discriminate.
    destruct (read_extended_mono data (pos + 1)
                (proj1 (land_15_range _)) E1) as [H1 _].
    destruct (read_extended_mono data p1
                (proj1 (land_15_range _)) E2) as [H2 Hl].
    apply read_extended_in_range in E1; [|lia].
    apply read_extended_in_range in E2; [|lia].
    intros H. apply IH in H; [|lia|exact Hp].
    cbn [append_option options] in H.
    rewrite options_size_app in H. cbn [options_size snd] in H.
    rewrite slice_length in H by lia. lia.
Qed.

(** X7. [parse] never returns more than it was given: in every message it
    returns, the token, the options (one header byte and the value, for each)
    and the payload together are at most as long as the buffer without its 4
    header bytes. *)
Theorem parse_content_bounded :
  forall (data : bytes) (m : CoAPMessage),
    parse data = Ok m ->
    len (token m) + options_size (options m) + len (payload m)
    <= len data - 4.
Proof.
  intros data m.
  destruct data as [|b0 [|b1 [|b2 [|b3 rest]]]]; try discriminate.
  rewrite parse_unfold. pose proof (land_15_range (byte_val b0)) as Hr.
  intros H. pose proof (parse_loop_header _ _ _ _ _ H) as Hh.
  apply parse_loop_size in H; [|lia|reflexivity].
  destruct Hh as (_ & _ & _ & _ & _ & -> & _).
  cbn [header_of token options options_size] in *.
  pose proof (len_nonneg rest). rewrite slice_length by lia.
  rewrite !len_cons in *. lia.
Qed.

Lemma parse_content_bounded_witness :
  len [xab; xcd] + options_size [(11, [x65; x6e])] + len [x68; x69]
  <= len [x42; x01; x12; x34; xab; xcd; xb2; x65; x6e; xff; x68; x69] - 4.
Proof.
  apply (@parse_content_bounded
           [x42; x01; x12; x34; xab; xcd; xb2; x65; x6e; xff; x68; x69]
           {| version := 1; type := 0; token_length := 2; code := 1;
              message_id := 4660; token := [xab; xcd];
              options := [(11, [x65; x6e])]; payload := [x68; x69];
              source := None |}).
  reflexivity.
Defined.

Lemma marker_nibbles b :
  byte_val b = 255 -> delta_nibble b = 15 /\ length_nibble b = 15.
Proof.
  intros H. unfold delta_nibble, length_nibble. rewrite H. split; reflexivity.
Qed.

Lemma read_extended_13 data pos e :
  getitem data pos = Ok e ->
  read_extended data pos 13 = Ok (byte_val e + 13, pos + 1).
Proof. intros H. unfold read_extended. cbn [Z.eqb Pos.eqb]. now rewrite H. Qed.

Lemma read_extended_14 data pos e1 e2 :
  slice data pos (pos + 2) = [e1; e2] ->
  read_extended data pos 14 =
  Ok (byte_val e1 * 256 + byte_val e2 + 269, pos + 2).
Proof. intros H. unfold read_extended. cbn [Z.eqb Pos.eqb]. now rewrite H. Qed.

Lemma getitem_second {A} (a b : A) l : getitem (a :: b :: l) 1 = Ok b.
Proof. rewrite getitem_cons by lia. now rewrite getitem_nonneg by lia. Qed.

Lemma slice_second_third {A} (a b c : A) l :
  slice (a :: b :: c :: l) 1 (1 + 2) = [b; c].
Proof.
  rewrite slice_cons by lia. rewrite slice_nonneg by lia. reflexivity.
Qed.

(** [parse] on a header, a whole token and one option that reaches the end
    of the buffer or beyond. *)
Lemma parse_last_option b0 b1 b2 b3 tok body hb d p1 l p2 :
  len tok = Z.land (byte_val b0) 0x0F ->
  getitem body 0 = Ok hb -> byte_val hb <> 255 ->
  read_extended body 1 (delta_nibble hb) = Ok (d, p1) ->
  read_extended body p1 (length_nibble hb) = Ok (l, p2) ->
  len body <= p2 + l ->
  parse (b0 :: b1 :: b2 :: b3 :: tok ++ body) =
  Ok (append_option (header_of b0 b1 b2 b3 tok) (d, slice body p2 (p2 + l))).
Proof.
  intros Htok Hhb Hff E1 E2 Hend.
  pose proof (len_nonneg tok) as Htok0.
  rewrite parse_unfold, <- Htok.
  rewrite slice_token by lia. rewrite slice_app_prefix.
  change (b0 :: b1 :: b2 :: b3 :: tok ++ body)
    with ([b0; b1; b2; b3] ++ tok ++ body).
  rewrite (app_assoc [b0; b1; b2; b3]).
  replace (4 + len tok) with (len ([b0; b1; b2; b3] ++ tok) + 0)
    by (rewrite len_app; unfold len; simpl; lia).
  rewrite parse_loop_app by lia.
  rewrite length_app. cbn [List.length app Nat.add].
  rewrite (@parse_loop_step _ body 0 0 _ hb); [|lia|assumption|assumption].
  cbn [Z.add]. rewrite E1. cbn [bind]. rewrite E2. cbn [bind].
  now rewrite parse_loop_end by lia.
Qed.

(** X8. [parse] understands the extensions of an option's delta and of its
    length. After a header and its token, an option byte whose delta nibble
    is 13 followed by one byte [e] gives the option number [e + 13]; a delta
    nibble of 14 followed by two bytes [e1], [e2] gives [256 * e1 + e2 + 269];
    a length nibble of 13 followed by one byte [e] announces a value of
    [e + 13] bytes and one of 14 followed by two bytes a value of
    [256 * e1 + e2 + 269] bytes. *)
Theorem parse_extended_options :
  forall (b0 b1 b2 b3 : byte) (tok : bytes),
    len tok = Z.land (byte_val b0) 0x0F ->
    (forall hb e v,
        delta_nibble hb = 13 -> length_nibble hb = len v -> len v <= 12 ->
        parse (b0 :: b1 :: b2 :: b3 :: tok ++ hb :: e :: v) =
        Ok (append_option (header_of b0 b1 b2 b3 tok) (byte_val e + 13, v)))
    /\ (forall hb e1 e2 v,
          delta_nibble hb = 14 -> length_nibble hb = len v -> len v <= 12 ->
          parse (b0 :: b1 :: b2 :: b3 :: tok ++ hb :: e1 :: e2 :: v) =
          Ok (append_option (header_of b0 b1 b2 b3 tok)
                (byte_val e1 * 256 + byte_val e2 + 269, v)))
    /\ (forall hb e v,
          delta_nibble hb <= 12 -> length_nibble hb = 13 ->
          len v = byte_val e + 13 ->
          parse (b0 :: b1 :: b2 :: b3 :: tok ++ hb :: e :: v) =
          Ok (append_option (header_of b0 b1 b2 b3 tok) (delta_nibble hb, v)))
    /\ (forall hb e1 e2 v,
          delta_nibble hb <= 12 -> length_nibble hb = 14 ->
          len v = byte_val e1 * 256 + byte_val e2 + 269 ->
          parse (b0 :: b1 :: b2 :: b3 :: tok ++ hb :: e1 :: e2 :: v) =
          Ok (append_option (header_of b0 b1 b2 b3 tok)
                (delta_nibble hb, v))).
Proof.
  intros b0 b1 b2 b3 tok Htok.
  assert (Hnff : forall hb, delta_nibble hb <> 15 -> byte_val hb <> 255)
    by (intros hb Hd Hff; apply marker_nibbles in Hff; tauto).
  repeat split.
  - intros hb e v Hd Hl Hv. pose proof (len_nonneg v).
    rewrite (@parse_last_option b0 b1 b2 b3 tok (hb :: e :: v) hb
               (byte_val e + 13) 2 (len v) 2);
      try assumption; try reflexivity.
    + rewrite !slice_cons by lia.
      replace (2 - 1 - 1) with 0 by lia.
      replace (2 + len v - 1 - 1) with (len v) by lia.
      now rewrite slice_whole by lia.
    + apply Hnff. lia.
    + rewrite Hd. apply read_extended_13, getitem_second.
    + rewrite Hl. apply read_extended_small. lia.
    + rewrite !len_cons. lia.
  - intros hb e1 e2 v Hd Hl Hv. pose proof (len_nonneg v).
    rewrite (@parse_last_option b0 b1 b2 b3 tok (hb :: e1 :: e2 :: v) hb
               (byte_val e1 * 256 + byte_val e2 + 269) 3 (len v) 3);
      try assumption; try reflexivity.
    + rewrite !slice_cons by lia.
      replace (3 - 1 - 1 - 1) with 0 by lia.
      replace (3 + len v - 1 - 1 - 1) with (len v) by lia.
      now rewrite slice_whole by lia.
    + apply Hnff. lia.
    + rewrite Hd. apply (@read_extended_14 _ 1), slice_second_third.
    + rewrite Hl. apply read_extended_small. lia.
    + rewrite !len_cons. lia.
  - intros hb e v Hd Hl Hv. pose proof (len_nonneg v).
    pose proof (land_15_range (Z.shiftr (byte_val hb) 4)) as Hr.
    fold (delta_nibble hb) in Hr.
    rewrite (@parse_last_option b0 b1 b2 b3 tok (hb :: e :: v) hb
               (delta_nibble hb) 1 (len v) 2);
      try assumption; try reflexivity.
    + rewrite !slice_cons by lia.
      replace (2 - 1 - 1) with 0 by lia.
      replace (2 + len v - 1 - 1) with (len v) by lia.
      now rewrite slice_whole by lia.
    + apply Hnff. lia.
    + apply read_extended_small. lia.
    + rewrite Hl, Hv. apply read_extended_13, getitem_second.
    + rewrite !len_cons. lia.
  - intros hb e1 e2 v Hd Hl Hv. pose proof (len_nonneg v).
    pose proof (land_15_range (Z.shiftr (byte_val hb) 4)) as Hr.
    fold (delta_nibble hb) in Hr.
    rewrite (@parse_last_option b0 b1 b2 b3 tok (hb :: e1 :: e2 :: v) hb
               (delta_nibble hb) 1 (len v) 3);
      try assumption; try reflexivity.
    + rewrite !slice_cons by lia.
      replace (3 - 1 - 1 - 1) with 0 by lia.
      replace (3 + len v - 1 - 1 - 1) with (len v) by lia.
      now rewrite slice_whole by lia.
    + apply Hnff. lia.
    + apply read_extended_small. lia.
    + rewrite Hl, Hv. apply (@read_extended_14 _ 1), slice_second_third.
    + rewrite !len_cons. lia.
Qed.

Lemma parse_extended_options_witness :
  parse [x40; x01; x00; x2a; xd1; x05; x61] =
  Ok (append_option (header_of x40 x01 x00 x2a []) (18, [x61]))
  /\ parse [x40; x01; x00; x2a; xe0; x00; x1f] =
     Ok (append_option (header_of x40 x01 x00 x2a []) (300, [])).
Proof.
  destruct (@parse_extended_options x40 x01 x00 x2a [])
    as (H13 & H14 & _); [reflexivity|].
  split.
  - apply (H13 xd1 x05 [x61]); [reflexivity|reflexivity|].
    unfold len. simpl. lia.
  - apply (H14 xe0 x00 x1f []); [reflexivity|reflexivity|].
    unfold len. simpl. lia.
Defined.

(** ** What [serialize] returns *)

Lemma pack_BBH_raises a b c :
  ~ (0 <= b <= 255 /\ 0 <= c <= 65535) ->
  pack_BBH a b c = Raise StructError.
Proof.
  intros H. unfold pack_BBH.
  destruct ((0 <=? a) && (a <=? 255) && (0 <=? b) && (b <=? 255)
            && (0 <=? c) && (c <=? 65535)) eqn:E; [|reflexivity].
  exfalso. apply H.
  repeat (apply andb_prop in E; destruct E as [E ?]).
  repeat match goal with
         | H : (_ <=? _) = true |- _ => apply Z.leb_le in H
         end.
  lia.
Qed.

(** X9. [serialize] returns the bytes of every message whose code is in
    0..255 and whose message id is in 0..65535, whatever its other fields
    hold, and raises [struct.error] for every other message. *)
Theorem serialize_outcomes :
  forall m : CoAPMessage,
    (0 <= code m <= 255 /\ 0 <= message_id m <= 65535 ->
     exists wire, serialize m = Ok wire)
    /\ (~ (0 <= code m <= 255 /\ 0 <= message_id m <= 65535) ->
        serialize m = Raise StructError).
Proof.
  intros m. split.
  - intros [Hc Hm]. now apply serialize_ok.
  - intros H. unfold serialize. now rewrite pack_BBH_raises.
Qed.

Lemma pack_BBH_length a b c d : pack_BBH a b c = Ok d -> len d = 4.
Proof.
  unfold pack_BBH. destruct (_ && _); [|discriminate].
  intros [= <-]. reflexivity.
Qed.

Lemma serialize_options_length opts :
  forall cur enc,
    serialize_options opts cur [] = Ok enc -> len enc = options_size opts.
Proof.
  induction opts as [|[num value] opts IH]; intros cur enc.
  - simpl. intros [= <-]. reflexivity.
  - cbn [serialize_options].
    rewrite bytes_of_int_ok by apply option_header_range. cbn [bind].
    rewrite serialize_options_acc.
    destruct (serialize_options opts num []) as [enc'| |] eqn:E;
      cbn [bind]; try discriminate.
    intros [= <-]. apply IH in E.
    cbn [options_size snd app]. rewrite ?len_cons, ?len_app, ?len_cons.
    change (len (@nil byte)) with 0. lia.
Qed.

Lemma options_size_permutation l l' :
  Permutation l l' -> options_size l = options_size l'.
Proof.
  intros H. induction H; simpl; lia.
Qed.

(** X10. The length of what [serialize] returns: 4 header bytes, the token
    when the token length is positive, one byte and the value for each
    option, however large its number or its value, and the marker byte and
    the payload when the payload is not empty. *)
Theorem serialize_length :
  forall (m : CoAPMessage) (wire : bytes),
    serialize m = Ok wire ->
    len wire =
    4 + (if 0 <? token_length m then len (token m) else 0)
    + options_size (options m)
    + match payload m with
      | [] => 0
      | _ :: _ => 1 + len (payload m)
      end.
Proof.
  intros m wire. unfold serialize.
  destruct (pack_BBH _ (code m) (message_id m)) as [hdr| |] eqn:Eh;
    cbn [bind]; try discriminate.
  apply pack_BBH_length in Eh.
  rewrite serialize_options_acc.
  destruct (serialize_options (sorted (options m)) 0 []) as [enc| |] eqn:Ee;
    cbn [bind]; try discriminate.
  apply serialize_options_length in Ee.
  rewrite <- (options_size_permutation (sorted_permutation (options m))) in Ee.
  intros [= <-].
  destruct (payload m) as [|p pl]; destruct (0 <? token_length m);
    rewrite ?len_app, ?len_cons; try change (len (@nil byte)) with 0; lia.
Qed.

Lemma serialize_length_witness :
  len [x42; x01; x12; x34; xab; xcd; xb2; x65; x6e; xff; x68; x69] =
  4 + 2 + options_size [(11, [x65; x6e])] + (1 + len [x68; x69]).
Proof.
  apply (@serialize_length
           {| version := 1; type := 0; token_length := 2; code := 1;
              message_id := 4660; token := [xab; xcd];
              options := [(11, [x65; x6e])]; payload := [x68; x69];
              source := None |}).
  reflexivity.
Defined.

(** ** The order of the options does not reach the wire *)

Lemma byte_val_inj a b : byte_val a = byte_val b -> a = b.
Proof.
  intros H. rewrite <- (byte_of_val a), <- (byte_of_val b). now rewrite H.
Qed.

Ltac ltb_cases :=
  repeat match goal with
         | |- context [?x <? ?y] =>
             let E := fresh "E" in
             destruct (x <? y) eqn:E;
             [apply Z.ltb_lt in E|apply Z.ltb_ge in E]
         | H : context [?x <? ?y] |- _ =>
             let E := fresh "E" in
             destruct (x <? y) eqn:E;
             [apply Z.ltb_lt in E|apply Z.ltb_ge in E]
         end.

Lemma bytes_lt_asym a : forall b, bytes_lt a b = true -> bytes_lt b a = false.
Proof.
  induction a as [|x a IH]; intros [|y b]; simpl; try congruence.
  ltb_cases; try congruence; try lia. apply IH.
Qed.

Lemma bytes_lt_total a :
  forall b, bytes_lt a b = false -> bytes_lt b a = false -> a = b.
Proof.
  induction a as [|x a IH]; intros [|y b]; simpl; try congruence.
  ltb_cases; try congruence; try lia.
  intros H1 H2. f_equal; [apply byte_val_inj; lia|now apply IH].
Qed.

Lemma bytes_lt_between c :
  forall a b,
    bytes_lt c a = true -> bytes_lt b a = true \/ bytes_lt c b = true.
Proof.
  induction c as [|z c IH]; intros [|x a] [|y b]; simpl; auto;
    try discriminate.
  ltb_cases; auto; try lia; try discriminate.
Qed.

Lemma tuple_lt_asym a b : tuple_lt a b = true -> tuple_lt b a = false.
Proof.
  unfold tuple_lt. ltb_cases; try congruence; try lia. apply bytes_lt_asym.
Qed.

Lemma tuple_lt_total a b :
  tuple_lt a b = false -> tuple_lt b a = false -> a = b.
Proof.
  unfold tuple_lt. destruct a as [na va], b as [nb vb]. simpl.
  ltb_cases; try congruence; try lia.
  intros H1 H2. f_equal; [lia|now apply bytes_lt_total].
Qed.

Lemma tuple_lt_between c a b :
  tuple_lt c a = true -> tuple_lt b a = true \/ tuple_lt c b = true.
Proof.
  unfold tuple_lt. ltb_cases; auto; try lia; try discriminate.
  apply bytes_lt_between.
Qed.

(** Two insertions commute, so the sorted list depends on the elements
    only. *)
Lemma insert_sorted_comm x y l :
  insert_sorted x (insert_sorted y l) = insert_sorted y (insert_sorted x l).
Proof.
  induction l as [|z l IH]; simpl.
  - destruct (tuple_lt y x) eqn:Eyx, (tuple_lt x y) eqn:Exy; try reflexivity.
    + apply tuple_lt_asym in Eyx. congruence.
    + now rewrite (@tuple_lt_total _ _ Exy Eyx).
  - destruct (tuple_lt z y) eqn:Ezy, (tuple_lt z x) eqn:Ezx; simpl;
      rewrite ?Ezy, ?Ezx.
    + now rewrite IH.
    + destruct (@tuple_lt_between z y x Ezy) as [H|H]; [|congruence].
      now rewrite H.
    + destruct (@tuple_lt_between z x y Ezx) as [H|H]; [|congruence].
      now rewrite H.
    + destruct (tuple_lt y x) eqn:Eyx, (tuple_lt x y) eqn:Exy;
        rewrite ?Ezy, ?Ezx; try reflexivity.
      * apply tuple_lt_asym in Eyx. congruence.
      * now rewrite (@tuple_lt_total _ _ Exy Eyx).
Qed.

Lemma sorted_permuted l l' : Permutation l l' -> sorted l = sorted l'.
Proof.
  intros H. induction H; simpl.
  - reflexivity.
  - now rewrite IHPermutation.
  - apply insert_sorted_comm.
  - congruence.
Qed.

(** X11. What [serialize] writes does not depend on the order in which the
    options are held: two messages that differ only by a rearrangement of
    their option lists are serialized to the same bytes (or both not
    serialized). *)
Theorem serialize_permuted_options :
  forall (m : CoAPMessage) (opts : list (Z * bytes)),
    Permutation (options m) opts ->
    serialize (with_options m opts) = serialize m.
Proof.
  intros m opts H. unfold serialize, with_options.
  cbn [version type token_length code message_id token options payload].
  now rewrite (sorted_permuted H).
Qed.

Lemma serialize_permuted_options_witness :
  serialize
    {| version := 1; type := 0; token_length := 0; code := 1;
       message_id := 42; token := [];
       options := [(12, [x00]); (11, [x62]); (11, [x61])];
       payload := []; source := None |} =
  serialize
    {| version := 1; type := 0; token_length := 0; code := 1;
       message_id := 42; token := [];
       options := [(11, [x61]); (11, [x62]); (12, [x00])];
       payload := []; source := None |}.
Proof.
  apply (@serialize_permuted_options
           {| version := 1; type := 0; token_length := 0; code := 1;
              message_id := 42; token := [];
              options := [(11, [x61]); (11, [x62]); (12, [x00])];
              payload := []; source := None |}
           [(12, [x00]); (11, [x62]); (11, [x61])]).
  cbn [options].
  apply Permutation_sym, Permutation_rev.
Defined.

(** ** [serialize], then [parse] *)

(** X12. On the messages of the codec's domain (header fields within their
    bits, token length equal to the length of a token of at most 15 bytes,
    options already in sorted order with deltas and value lengths of at most
    12, no source) [serialize] succeeds and [parse] gives the message back
    from the bytes. *)
Theorem serialize_parse_round_trip :
  forall m : CoAPMessage,
    carried_faithfully m ->
    exists wire, serialize m = Ok wire /\ parse wire = Ok m.
Proof. intros m H. now apply parse_serialize_small. Qed.

Lemma serialize_parse_round_trip_witness :
  exists wire,
    serialize
      {| version := 1; type := 0; token_length := 2; code := 1;
         message_id := 4660; token := [xab; xcd];
         options := [(11, [x73; x74; x6f; x72; x65]);
                     (11, [x78]); (12, [x00])];
         payload := [x68; x69]; source := None |} = Ok wire
    /\ parse wire =
       Ok {| version := 1; type := 0; token_length := 2; code := 1;
             message_id := 4660; token := [xab; xcd];
             options := [(11, [x73; x74; x6f; x72; x65]);
                         (11, [x78]); (12, [x00])];
             payload := [x68; x69]; source := None |}.
Proof.
  apply serialize_parse_round_trip.
  unfold carried_faithfully. cbn [small_options options]. unfold len.
  simpl. repeat split; try lia; reflexivity.
Defined.

(** [parse] on what [serialize] wrote for a message without payload,
    followed by any bytes: the loop reaches those bytes with the message
    rebuilt. *)
Lemma parse_serialized_then m tail :
  carried_faithfully m -> payload m = [] ->
  exists wire,
    serialize m = Ok wire
    /\ parse (wire ++ tail) =
       parse_loop (List.length tail) tail 0 (last_number 0 (options m)) m.
Proof.
  intros (Hv & Ht & Htl & Htok & Hc & Hmid & Hsrc & Hsorted & Hsmall) Hpl.
  pose proof (len_nonneg (token m)) as Htok0.
  destruct (@header_byte_fields (version m) (type m) (token_length m))
    as (Fv & Ft & Fl); [lia|lia|lia|].
  pose proof (message_id_bytes Hmid) as Fmid.
  pose proof (byte_val_of (z := code m)) as Fc.
  destruct (serialize_options_ok (options m) 0 []) as [enc Henc].
  unfold serialize.
  rewrite pack_BBH_ok by (assumption || apply header_byte_range).
  set (b0 := byte_of (Z.lor _ _)) in *.
  set (b1 := byte_of (code m)) in *.
  set (b2 := byte_of (Z.shiftr (message_id m) 8)) in *.
  set (b3 := byte_of (message_id m)) in *.
  cbn [bind]. rewrite Hsorted, serialize_options_acc, Henc. cbn [bind].
  rewrite Hpl.
  eexists. split; [reflexivity|].
  match goal with
  | |- parse (?w ++ tail) = _ =>
      assert (Hwire : w ++ tail
                      = b0 :: b1 :: b2 :: b3 :: token m ++ enc ++ tail)
  end.
  { assert (Hhdr : (if 0 <? token_length m
                    then [b0; b1; b2; b3] ++ token m else [b0; b1; b2; b3])
                   = [b0; b1; b2; b3] ++ token m).
    { destruct (0 <? token_length m) eqn:E; [reflexivity|].
      apply Z.ltb_ge in E.
      assert (Hnil : len (token m) = 0 -> token m = [])
        by (unfold len; destruct (token m); [reflexivity|simpl; lia]).
      rewrite Hnil by lia. reflexivity. }
    rewrite Hhdr. simpl. now rewrite <- !app_assoc. }
  rewrite Hwire.
  rewrite parse_unfold. rewrite Fl, Htl.
  rewrite slice_token by lia. rewrite slice_app_prefix.
  change (b0 :: b1 :: b2 :: b3 :: token m ++ enc ++ tail)
    with ([b0; b1; b2; b3] ++ token m ++ enc ++ tail).
  rewrite (app_assoc [b0; b1; b2; b3]).
  replace (4 + len (token m)) with (len ([b0; b1; b2; b3] ++ token m) + 0)
    by (rewrite len_app; unfold len; simpl; lia).
  rewrite parse_loop_app by lia.
  rewrite (@parse_loop_options (options m) 0 enc tail); try assumption.
  2:{ unfold len. rewrite !length_app. simpl List.length. lia. }
  rewrite fold_append_options.
  unfold header_of. cbn [version type token_length code message_id token
                         options payload source app].
  rewrite Fv, Ft, Fl, Fmid, Fc by lia.
  replace {| version := version m; type := type m;
             token_length := token_length m; code := code m;
             message_id := message_id m; token := token m;
             options := options m; payload := []; source := None |}
    with m by (destruct m; cbn in *; congruence).
  apply parse_loop_fuel_irrelevant; try lia;
    unfold len; cbn [List.length]; rewrite ?length_app; lia.
Qed.

(** X13. After the bytes that [serialize] writes for a message of the
    codec's domain that has no payload, a marker byte 0xFF and any bytes [p]
    are read by [parse] as the same message with payload [p]: what follows
    the marker is never read as options. A marker that is the last byte is
    accepted too and gives an empty payload, so the buffer with it and the
    buffer without it decode to the same message. *)
Theorem parse_after_marker :
  forall (m : CoAPMessage) (p : bytes),
    carried_faithfully m -> payload m = [] ->
    exists wire,
      serialize m = Ok wire
      /\ parse (wire ++ xff :: p) = Ok (set_payload m p)
      /\ parse (wire ++ [xff]) = parse wire.
Proof.
  intros m p Hm Hpl.
  destruct (parse_serialize_small Hm) as (wire & Hwire & Hback).
  assert (Hmarker : forall q, parse (wire ++ xff :: q) = Ok (set_payload m q)).
  { intros q.
    destruct (@parse_serialized_then m (xff :: q) Hm Hpl)
      as (wire' & Hwire' & Hparse).
    assert (wire' = wire) as -> by congruence.
    rewrite Hparse. cbn [List.length].
    erewrite parse_loop_marker; [|lia|reflexivity|reflexivity].
    now rewrite slice_from_nonneg by lia. }
  exists wire. split; [assumption|]. split; [apply Hmarker|].
  rewrite Hmarker, Hback. f_equal.
  clear - Hpl. destruct m. unfold set_payload. cbn in *. now subst.
Qed.

Lemma parse_after_marker_witness :
  exists wire,
    serialize (header_of x41 x01 x00 x2a [xab]) = Ok wire
    /\ parse (wire ++ xff :: [x68; x69]) =
       Ok (set_payload (header_of x41 x01 x00 x2a [xab]) [x68; x69])
    /\ parse (wire ++ [xff]) = parse wire.
Proof.
  apply parse_after_marker; [|reflexivity].
  unfold carried_faithfully.
  repeat split; vm_compute; try reflexivity; discriminate.
Defined.

(** X14. A response built by [create_response] survives the wire: for a
    request with a token of at most 15 bytes and a message id in 0..65535
    (whatever its other fields), a code in 0..255 and a payload of bytes,
    [create_response] returns a message that [serialize] writes and [parse]
    reads back unchanged. *)
Theorem response_round_trip :
  forall (request : CoAPMessage) (c : Z) (p : bytes),
    len (token request) <= 15 -> 0 <= message_id request <= 65535 ->
    0 <= c <= 255 ->
    exists response wire,
      create_response request c (Bytes p) = Ok response
      /\ serialize response = Ok wire
      /\ parse wire = Ok response.
Proof.
  intros request c p Htok Hmid Hc.
  pose proof (@create_response_value request c (Bytes p) p eq_refl) as Hresp.
  set (response := {| version := 1; type := CoAPType.ACK;
                      token_length := len (token request); code := c;
                      message_id := message_id request;
                      token := token request; options := [];
                      payload := p; source := None |}) in *.
  destruct (@parse_serialize_small response) as (wire & Hwire & Hback).
  { unfold carried_faithfully, response, CoAPType.ACK.
    cbn [version type token_length code message_id token options payload
         source small_options sorted fold_right].
    pose proof (len_nonneg (token request)).
    repeat split; try lia; reflexivity. }
  exists response, wire. repeat split; assumption.
Qed.

Lemma response_round_trip_witness :
  exists response wire,
    create_response
      {| version := 1; type := 0; token_length := 0; code := 1;
         message_id := 42; token := [xab; xcd];
         options := [(300, [x61])]; payload := [x01]; source := None |}
      CoAPCode.CONTENT (Bytes [x6f; x6b]) = Ok response
    /\ serialize response = Ok wire
    /\ parse wire = Ok response.
Proof.
  apply response_round_trip; unfold len, CoAPCode.CONTENT; simpl; lia.
Defined.

(** ** The dispatcher *)

Lemma received_fields message addr :
  received message addr ->
  0 <= code message <= 255 /\ 0 <= message_id message <= 65535
  /\ len (token message) <= 15 /\ source message = Some addr.
Proof.
  intros [data H]. unfold receive in H.
  destruct (parse data) as [m0| |] eqn:Hparse; try discriminate.
  injection H as <-.
  destruct (parse_Ok_fields _ Hparse) as (Hc & Hmid & _ & Htok).
  repeat split; assumption || reflexivity || apply Hc || apply Hmid.
Qed.

(** [send_response] to the sender of a received message. *)
Lemma send_response_received message addr c s p srv :
  received message addr -> 0 <= c <= 255 -> encode_utf8 s = Ok p ->
  exists srv',
    send_response message c (Str s) srv = (Ok tt, srv')
    /\ store_stats srv' = store_stats srv /\ console srv' = console srv
    /\ answered message addr c p srv srv'.
Proof.
  intros Hrecv Hc Hp.
  destruct (received_fields Hrecv) as (_ & Hmid & Htok & Hsrc).
  destruct (@send_response_ok message c s p addr srv Hc Hmid Htok Hsrc Hp)
    as (response & wire & Hresp & Hcode & Hpl & _ & Hback & Hsend).
  rewrite (@create_response_value message c (Str s) p Hp) in Hresp.
  injection Hresp as <-.
  eexists. split; [exact Hsend|]. split; [reflexivity|].
  split; [reflexivity|].
  eexists _, wire. split; [reflexivity|]. split; [exact Hback|].
  repeat split.
Qed.

Lemma answered_frame message addr c p srv srv1 srv2 :
  sent srv1 = sent srv -> answered message addr c p srv1 srv2 ->
  answered message addr c p srv srv2.
Proof.
  intros Hs (response & wire & H & Hrest). exists response, wire.
  rewrite <- Hs. split; assumption.
Qed.

Lemma answered_then message addr c p srv srv1 srv2 :
  answered message addr c p srv srv1 -> sent srv2 = sent srv1 ->
  answered message addr c p srv srv2.
Proof.
  intros (response & wire & H & Hrest) Hs. exists response, wire.
  rewrite Hs. split; assumption.
Qed.

(** The two handlers on a received message. *)
Lemma handle_entry_request_received message addr srv :
  received message addr ->
  exists srv',
    handle_entry_request message srv = (Ok tt, srv')
    /\ store_stats srv' = snd (add_customer (store_stats srv))
    /\ console srv' =
       console srv ++ [display (snd (add_customer (store_stats srv)))]
    /\ answered message addr CoAPCode.CONTENT
         (list_byte_of_string
            (if fst (add_customer (store_stats srv))
             then "allowed" else "denied")) srv srv'.
Proof.
  intros Hrecv.
  unfold handle_entry_request, mbind, on_stats, show_stats, can_enter,
    add_customer.
  destruct (customers_in_store (store_stats srv)
            <? max_capacity (store_stats srv)) eqn:E.
  - cbn [store_stats sent console customers_in_store max_capacity fst snd].
    rewrite E.
    match goal with
    | |- context [send_response _ _ _ ?s1] =>
        destruct (@send_response_received message addr CoAPCode.CONTENT
                    (lit "allowed") (list_byte_of_string "allowed") s1)
          as (srv' & Hsend & Hst & Hco & Hans);
        [assumption|vm_compute; split; discriminate|reflexivity|]
    end.
    rewrite Hsend. eexists. split; [reflexivity|].
    cbn [store_stats console]. rewrite Hst, Hco.
    repeat split.
    eapply answered_then; [|reflexivity].
    eapply answered_frame; [|exact Hans]. reflexivity.
  - cbn [store_stats sent console fst snd].
    match goal with
    | |- context [send_response _ _ _ ?s1] =>
        destruct (@send_response_received message addr CoAPCode.CONTENT
                    (lit "denied") (list_byte_of_string "denied") s1)
          as (srv' & Hsend & Hst & Hco & Hans);
        [assumption|vm_compute; split; discriminate|reflexivity|]
    end.
    rewrite Hsend. eexists. split; [reflexivity|].
    cbn [store_stats console]. rewrite Hst, Hco.
    repeat split.
    eapply answered_then; [|reflexivity].
    eapply answered_frame; [|exact Hans]. reflexivity.
Qed.

Lemma handle_exit_request_received message addr srv :
  received message addr ->
  exists srv',
    handle_exit_request message srv = (Ok tt, srv')
    /\ store_stats srv' = snd (remove_customer (store_stats srv))
    /\ console srv' =
       console srv ++ [display (snd (remove_customer (store_stats srv)))]
    /\ answered message addr CoAPCode.CHANGED
         (list_byte_of_string
            (if fst (remove_customer (store_stats srv))
             then "success" else "error")) srv srv'.
Proof.
  intros Hrecv.
  unfold handle_exit_request, mbind, on_stats, show_stats, remove_customer.
  destruct (0 <? customers_in_store (store_stats srv)) eqn:E.
  - cbn [store_stats sent console fst snd].
    match goal with
    | |- context [send_response _ _ _ ?s1] =>
        destruct (@send_response_received message addr CoAPCode.CHANGED
                    (lit "success") (list_byte_of_string "success") s1)
          as (srv' & Hsend & Hst & Hco & Hans);
        [assumption|vm_compute; split; discriminate|reflexivity|]
    end.
    rewrite Hsend. eexists. split; [reflexivity|].
    cbn [store_stats console]. rewrite Hst, Hco.
    repeat split.
    eapply answered_then; [|reflexivity].
    eapply answered_frame; [|exact Hans]. reflexivity.
  - cbn [store_stats sent console fst snd].
    match goal with
    | |- context [send_response _ _ _ ?s1] =>
        destruct (@send_response_received message addr CoAPCode.CHANGED
                    (lit "error") (list_byte_of_string "error") s1)
          as (srv' & Hsend & Hst & Hco & Hans);
        [assumption|vm_compute; split; discriminate|reflexivity|]
    end.
    rewrite Hsend. eexists. split; [reflexivity|].
    cbn [store_stats console]. rewrite Hst, Hco.
    repeat split.
    eapply answered_then; [|reflexivity].
    eapply answered_frame; [|exact Hans]. reflexivity.
Qed.

Section DispatcherProperties.
Variable segment_text : bytes -> str.
Variable lower : str -> str.
Variable exn_text : exn -> str.

Abbreviation dispatch := (handle_message segment_text lower exn_text).
Abbreviation matches := (path_matches segment_text lower).

(** The five ways through [handle_message] for a received message; none of
    them ends in the [except] clause. *)
Lemma handle_message_received message addr srv :
  received message addr ->
  (code message = CoAPCode.GET /\ matches "entry" message = true
   /\ dispatch message srv = handle_entry_request message srv)
  \/ (code message = CoAPCode.GET /\ matches "entry" message = false
      /\ dispatch message srv =
         send_response message CoAPCode.CONTENT
           (Str (lit "Debug response")) srv)
  \/ (code message = CoAPCode.PUT /\ matches "exit" message = true
      /\ dispatch message srv = handle_exit_request message srv)
  \/ (code message = CoAPCode.PUT /\ matches "exit" message = false
      /\ dispatch message srv =
         send_response message CoAPCode.CHANGED
           (Str (lit "Debug PUT response")) srv)
  \/ (code message <> CoAPCode.GET /\ code message <> CoAPCode.PUT
      /\ dispatch message srv =
         send_response message CoAPCode.METHOD_NOT_ALLOWED
           (Str (lit "")) srv).
Proof.
  intros Hrecv. unfold path_matches, handle_message, try_except.
  destruct (code message =? CoAPCode.GET) eqn:Eg.
  - apply Z.eqb_eq in Eg.
    destruct (route_matches lower (lit "entry") _ _) eqn:Em.
    + left. split; [assumption|]. split; [reflexivity|].
      destruct (handle_entry_request_received srv Hrecv)
        as (srv' & -> & _). reflexivity.
    + right; left. split; [assumption|]. split; [reflexivity|].
      destruct (@send_response_received message addr CoAPCode.CONTENT
                  (lit "Debug response")
                  (list_byte_of_string "Debug response") srv)
        as (srv' & -> & _);
        [assumption|vm_compute; split; discriminate|reflexivity|].
      reflexivity.
  - apply Z.eqb_neq in Eg.
    destruct (code message =? CoAPCode.PUT) eqn:Ep.
    + apply Z.eqb_eq in Ep.
      destruct (route_matches lower (lit "exit") _ _) eqn:Em.
      * do 2 right; left. split; [assumption|]. split; [reflexivity|].
        destruct (handle_exit_request_received srv Hrecv)
          as (srv' & -> & _). reflexivity.
      * do 3 right; left. split; [assumption|]. split; [reflexivity|].
        destruct (@send_response_received message addr CoAPCode.CHANGED
                    (lit "Debug PUT response")
                    (list_byte_of_string "Debug PUT response") srv)
          as (srv' & -> & _);
          [assumption|vm_compute; split; discriminate|reflexivity|].
        reflexivity.
    + apply Z.eqb_neq in Ep. do 4 right.
      split; [assumption|]. split; [assumption|].
      destruct (@send_response_received message addr
                  CoAPCode.METHOD_NOT_ALLOWED (lit "") [] srv)
        as (srv' & -> & _);
        [assumption|vm_compute; split; discriminate|reflexivity|].
      reflexivity.
Qed.

Lemma handle_message_outcome message addr srv :
  received message addr ->
  exists srv' c p,
    handle_message segment_text lower exn_text message srv = (Ok tt, srv')
    /\ answered message addr c p srv srv'
    /\ (c = CoAPCode.CONTENT \/ c = CoAPCode.CHANGED
        \/ c = CoAPCode.METHOD_NOT_ALLOWED)
    /\ (store_stats srv' = store_stats srv
        \/ store_stats srv' = snd (add_customer (store_stats srv))
        \/ store_stats srv' = snd (remove_customer (store_stats srv))).
Proof.
  intros Hrecv.
  destruct (handle_message_received srv Hrecv)
    as [(_ & _ & ->)|[(_ & _ & ->)|[(_ & _ & ->)|[(_ & _ & ->)|(_ & _ & ->)]]]].
  - destruct (handle_entry_request_received srv Hrecv)
      as (srv' & -> & Hst & _ & Hans).
    exists srv', CoAPCode.CONTENT. eexists.
    split; [reflexivity|]. split; [exact Hans|]. auto.
  - destruct (@send_response_received message addr CoAPCode.CONTENT
                (lit "Debug response")
                (list_byte_of_string "Debug response") srv)
      as (srv' & -> & Hst & _ & Hans);
      [assumption|vm_compute; split; discriminate|reflexivity|].
    exists srv', CoAPCode.CONTENT. eexists.
    split; [reflexivity|]. split; [exact Hans|]. auto.
  - destruct (handle_exit_request_received srv Hrecv)
      as (srv' & -> & Hst & _ & Hans).
    exists srv', CoAPCode.CHANGED. eexists.
    split; [reflexivity|]. split; [exact Hans|]. auto.
  - destruct (@send_response_received message addr CoAPCode.CHANGED
                (lit "Debug PUT response")
                (list_byte_of_string "Debug PUT response") srv)
      as (srv' & -> & Hst & _ & Hans);
      [assumption|vm_compute; split; discriminate|reflexivity|].
    exists srv', CoAPCode.CHANGED. eexists.
    split; [reflexivity|]. split; [exact Hans|]. auto.
  - destruct (@send_response_received message addr
                CoAPCode.METHOD_NOT_ALLOWED (lit "") [] srv)
      as (srv' & -> & Hst & _ & Hans);
      [assumption|vm_compute; split; discriminate|reflexivity|].
    exists srv', CoAPCode.METHOD_NOT_ALLOWED. eexists.
    split; [reflexivity|]. split; [exact Hans|]. auto.
Qed.


Lemma handle_message_debug :
  forall (message : CoAPMessage) (addr : address) (srv : SmartStoreServer),
    received message addr ->
    (code message = CoAPCode.GET /\ matches "entry" message = false
     \/ code message = CoAPCode.PUT /\ matches "exit" message = false
     \/ code message <> CoAPCode.GET /\ code message <> CoAPCode.PUT) ->
    exists srv',
      handle_message segment_text lower exn_text message srv = (Ok tt, srv')
      /\ store_stats srv' = store_stats srv /\ console srv' = console srv
      /\ answered message addr
           (if code message =? CoAPCode.GET then CoAPCode.CONTENT
            else if code message =? CoAPCode.PUT then CoAPCode.CHANGED
            else CoAPCode.METHOD_NOT_ALLOWED)
           (list_byte_of_string
              (if code message =? CoAPCode.GET then "Debug response"
               else if code message =? CoAPCode.PUT then "Debug PUT response"
               else ""))
           srv srv'.
Proof.
  intros message addr srv Hrecv Hcase.
  destruct (handle_message_received srv Hrecv)
    as [(Hc & Hm & _)|[(Hc & Hm & ->)|[(Hc & Hm & _)
       |[(Hc & Hm & ->)|(Hg & Hp & ->)]]]].
  - exfalso. destruct Hcase as [[_ H]|[[H _]|[H _]]];
      try congruence. rewrite Hc in H. discriminate.
  - rewrite Hc. cbn [Z.eqb CoAPCode.GET Pos.eqb].
    apply send_response_received;
      [assumption|vm_compute; split; discriminate|reflexivity].
  - exfalso. destruct Hcase as [[H _]|[[_ H]|[_ H]]];
      try congruence. rewrite Hc in H. discriminate.
  - rewrite Hc. cbn [Z.eqb CoAPCode.GET CoAPCode.PUT Pos.eqb].
    apply send_response_received;
      [assumption|vm_compute; split; discriminate|reflexivity].
  - apply Z.eqb_neq in Hg, Hp. rewrite Hg, Hp.
    apply send_response_received;
      [assumption|vm_compute; split; discriminate|reflexivity].
Qed.



Lemma no_path_option message :
  Forall (fun o : Z * bytes => fst o <> CoAPOption.URI_PATH)
         (options message) ->
  get_uri_path segment_text message = []
  /\ last_path segment_text message = lit "unknown".
Proof.
  unfold get_uri_path, last_path. generalize (lit "unknown").
  induction (options message) as [|o opts IH]; intros path0 H.
  - split; reflexivity.
  - inversion H as [|? ? Ho Hopts]; subst. apply Z.eqb_neq in Ho.
    cbn [filter fold_left]. rewrite Ho. now apply IH.
Qed.


(** One datagram through the loop of [run]. *)
Lemma process_datagram_step data addr srv :
  exists srv' out,
    process_datagram segment_text lower exn_text data addr srv = (Ok tt, srv')
    /\ sent srv' = sent srv ++ out
    /\ List.length out = (if parses data then 1 else 0)%nat
    /\ (store_stats srv' = store_stats srv
        \/ store_stats srv' = snd (add_customer (store_stats srv))
        \/ store_stats srv' = snd (remove_customer (store_stats srv)))
    /\ (parses data = false -> srv' = srv).
Proof.
  unfold process_datagram, try_except, parses.
  pose proof (parse_no_fuel data) as Hfuel.
  destruct (parse data) as [m0|e|] eqn:Hparse; [| |congruence].
  - assert (Hrecv : received (set_source m0 (Some addr)) addr)
      by (exists data; unfold receive; now rewrite Hparse).
    destruct (handle_message_outcome srv Hrecv)
      as (srv' & c & p & -> & (response & wire & Hsent & _) & _ & Hst).
    exists srv', [(wire, addr)].
    repeat split; try assumption; discriminate.
  - exists srv, []. rewrite app_nil_r. repeat split; auto.
Qed.


Lemma serve_run datagrams :
  forall srv,
    ledger_ok (store_stats srv) ->
    exists srv' out,
      serve segment_text lower exn_text datagrams srv = (Ok tt, srv')
      /\ ledger_ok (store_stats srv')
      /\ max_capacity (store_stats srv') = max_capacity (store_stats srv)
      /\ total_entrants (store_stats srv)
         <= total_entrants (store_stats srv')
      /\ sent srv' = sent srv ++ out
      /\ List.length out
         = List.length (filter (fun d => parses (fst d)) datagrams).
Proof.
  induction datagrams as [|[data addr] rest IH]; intros srv Hok.
  - exists srv, []. rewrite app_nil_r.
    split; [reflexivity|]. split; [assumption|]. split; [reflexivity|].
    split; [lia|]. split; reflexivity.
  - destruct (process_datagram_step data addr srv)
      as (srv1 & out1 & Hstep & Hsent1 & Hlen1 & Hst & _).
    assert (Hok1 : ledger_ok (store_stats srv1)
                   /\ max_capacity (store_stats srv1)
                      = max_capacity (store_stats srv)
                   /\ total_entrants (store_stats srv)
                      <= total_entrants (store_stats srv1)).
    { destruct Hst as [-> |[-> | ->]].
      - split; [assumption|]. split; [reflexivity|lia].
      - split; [apply (add_customer_ok Hok)|].
        split; [apply (ledger_step_max TryEnter)
               |apply (ledger_step_total TryEnter)].
      - split; [apply (remove_customer_ok Hok)|].
        split; [apply (ledger_step_max TryLeave)
               |apply (ledger_step_total TryLeave)]. }
    destruct Hok1 as (Hok1 & Hmax1 & Htot1).
    destruct (IH srv1 Hok1)
      as (srv' & out & Hrun & Hok' & Hmax & Htot & Hsent & Hlen).
    exists srv', (out1 ++ out).
    cbn [serve]. unfold mbind. rewrite Hstep, Hrun.
    split; [reflexivity|]. split; [assumption|].
    split; [congruence|]. split; [lia|].
    split; [rewrite Hsent, Hsent1; symmetry; apply app_assoc|].
    rewrite length_app, Hlen1, Hlen. cbn [filter fst].
    destruct (parses data); reflexivity.
Qed.


End DispatcherProperties.

(** *** The dispatcher on examples *)






(** ** The text of a message *)

Lemma getitem_list_range {A} (l : list A) i :
  - len l <= i < len l -> exists a, getitem l i = Ok a.
Proof.
  intros H. unfold getitem.
  destruct (i <? 0) eqn:E;
    [apply Z.ltb_lt in E|apply Z.ltb_ge in E].
  - replace ((0 <=? i + len l) && (i + len l <? len l)) with true
      by (symmetry; apply andb_true_iff; split;
          [apply Z.leb_le|apply Z.ltb_lt]; lia).
    destruct (nth_error l (Z.to_nat (i + len l))) eqn:En; [eauto|].
    apply nth_error_None in En. unfold len in *. lia.
  - replace ((0 <=? i) && (i <? len l)) with true
      by (symmetry; apply andb_true_iff; split;
          [apply Z.leb_le|apply Z.ltb_lt]; lia).
    destruct (nth_error l (Z.to_nat i)) eqn:En; [eauto|].
    apply nth_error_None in En. unfold len in *. lia.
Qed.

Lemma getitem_list_outside {A} (l : list A) i :
  ~ (- len l <= i < len l) -> getitem l i = Raise IndexError.
Proof.
  intros H. unfold getitem.
  destruct (i <? 0) eqn:E;
    [apply Z.ltb_lt in E|apply Z.ltb_ge in E].
  - destruct ((0 <=? i + len l) && (i + len l <? len l)) eqn:E';
      [|reflexivity].
    apply andb_true_iff in E'. destruct E' as [E1 E2].
    apply Z.leb_le in E1. apply Z.ltb_lt in E2. lia.
  - destruct ((0 <=? i) && (i <? len l)) eqn:E'; [|reflexivity].
    apply andb_true_iff in E'. destruct E' as [E1 E2].
    apply Z.leb_le in E1. apply Z.ltb_lt in E2. lia.
Qed.

Section MessageTextProperties.
Variable segment_text : bytes -> str.
Variable bytes_text : bytes -> str.

Lemma code_text_outcome c :
  (-5 <= c -> exists t, code_text c = Ok t)
  /\ (c < -5 -> code_text c = Raise IndexError).
Proof.
  unfold code_text. split; intros H.
  - destruct (c =? 0); [eauto|]. destruct (c <=? 4) eqn:E; [|eauto].
    apply Z.leb_le in E. apply getitem_list_range.
    unfold len. simpl. lia.
  - destruct (c =? 0) eqn:E0; [apply Z.eqb_eq in E0; lia|].
    destruct (c <=? 4) eqn:E; [|apply Z.leb_gt in E; lia].
    apply getitem_list_outside. unfold len. simpl. lia.
Qed.

Lemma CoAPMessage_str_outcome self :
  (-4 <= type self <= 3 /\ -5 <= code self ->
   exists t, CoAPMessage_str segment_text bytes_text self = Ok t)
  /\ (~ (-4 <= type self <= 3 /\ -5 <= code self) ->
      CoAPMessage_str segment_text bytes_text self = Raise IndexError).
Proof.
  unfold CoAPMessage_str.
  destruct (code_text_outcome (code self)) as [Hok Hbad].
  split.
  - intros [Ht Hc]. destruct (Hok Hc) as [ct ->]. cbn [bind].
    destruct (@getitem_list_range _
                [lit "CON"; lit "NON"; lit "ACK"; lit "RST"] (type self))
      as [tt ->]; [unfold len; simpl; lia|].
    cbn [bind]. eauto.
  - intros H. destruct (Z.lt_ge_cases (code self) (-5)) as [Hc|Hc].
    + now rewrite (Hbad Hc).
    + destruct (Hok Hc) as [ct ->]. cbn [bind].
      rewrite getitem_list_outside; [reflexivity|].
      unfold len. simpl. lia.
Qed.


End MessageTextProperties.
